(** * myshell: a shallow embedding of [myshell.c]

    The interpreter reads a line, splits it into words, rewrites the
    first word through the alias table, and runs either a builtin or an
    external program.  The embedding keeps the shape of the C source:

    - the four globals ([shellname], [terminator], [aliases],
      [alias_count]) form the record [ShellState]; [aliases] is the
      fixed array of [MAX_ALIASES] slots and [alias_count] the number
      of slots in use, exactly as in the source;
    - everything outside the process image (working directory, files,
      the three standard streams) is the rest of [Machine];
    - what the operating system decides (allocation, [chdir], [fopen],
      [fork], [execvp], [waitpid], the text of [errno]) is read from an
      [OS] record of oracles;
    - a C function [int f(char **args)] becomes [f : OS -> list string
      -> M Z], where [M] is a state monad whose outcomes also record
      [exit()], a replaced process image, a call that never returns and
      undefined behaviour. *)

From Stdlib Require Import ZArith Ascii String List Lia Bool.
From stdpp Require Import base list strings gmap.

Local Open Scope string_scope.

(** ** Characters and C strings *)

Definition NUL : ascii := "000"%char.
Definition BEL : ascii := "007"%char.
Definition HT : ascii := "009"%char.
Definition LF : ascii := "010"%char.
Definition VT : ascii := "011"%char.
Definition FF : ascii := "012"%char.
Definition CR : ascii := "013"%char.
Definition SP : ascii := " "%char.

Definition nl : string := String LF EmptyString.

(** [isspace] of <ctype.h> in the C locale: the characters that end a
    [%s] conversion of [fscanf]. *)
Definition isspace (c : ascii) : bool :=
  Ascii.eqb c SP || Ascii.eqb c HT || Ascii.eqb c LF
  || Ascii.eqb c VT || Ascii.eqb c FF || Ascii.eqb c CR.

(** [LSH_TOK_DELIM] is the string " \t\r\n\a". *)
Definition LSH_TOK_DELIM : list ascii := [SP; HT; CR; LF; BEL].

Definition is_tok_delim (c : ascii) : bool :=
  existsb (Ascii.eqb c) LSH_TOK_DELIM.

(** A [string] that stands for a [char *] argument (a token, a stored
    name) is a C string and holds no NUL.  A raw buffer (the line read
    from the input, a token stored by [fscanf]) may hold some: the C
    string stored in it is made of the bytes before the first NUL, which
    is what [strdup], [strtok] and [strcmp] see. *)
Fixpoint cstr (s : string) : string :=
  match s with
  | EmptyString => EmptyString
  | String c s' => if Ascii.eqb c NUL then EmptyString else String c (cstr s')
  end.

(** [skip p s] drops the longest prefix of [s] whose characters satisfy
    [p] ([strspn]); [span p s] cuts [s] before the first character that
    satisfies [p] ([strcspn]). *)
Fixpoint skip (p : ascii -> bool) (s : string) : string :=
  match s with
  | EmptyString => EmptyString
  | String c s' => if p c then skip p s' else s
  end.

Fixpoint span (p : ascii -> bool) (s : string) : string * string :=
  match s with
  | EmptyString => (EmptyString, EmptyString)
  | String c s' =>
      if p c then (EmptyString, s)
      else let '(tok, rest) := span p s' in (String c tok, rest)
  end.

(** One call of [strtok] with [LSH_TOK_DELIM] on the text that is left:
    [None] is the NULL result; otherwise the token and the saved
    position, which is just after the delimiter that was overwritten. *)
Definition strtok (s : string) : option (string * string) :=
  match skip is_tok_delim s with
  | EmptyString => None
  | String c s1 =>
      let '(tok, rest) := span is_tok_delim (String c s1) in
      Some (tok, match rest with
                 | EmptyString => EmptyString
                 | String _ r => r
                 end)
  end.

(** One [%s] conversion of [fscanf]: leading white space is skipped and
    the following run of other characters is stored; [None] is an input
    failure (end of file before any character).  The character that
    ends the run stays in the stream. *)
Definition scan_s (s : string) : option (string * string) :=
  match skip isspace s with
  | EmptyString => None
  | String c s1 => Some (span isspace (String c s1))
  end.

(** ** Shell state *)

Definition MAX_ALIASES : nat := 10.

Record Alias : Type := mkAlias {
  new_name : string;
  old_name : string
}.

(** A slot of the zero-initialised array that was never written.  Every
    read of [aliases[i]] in the source has [i < alias_count], so the
    content of such a slot is never looked at. *)
Definition null_alias : Alias := mkAlias EmptyString EmptyString.

#[global] Instance Alias_inhabited : Inhabited Alias := populate null_alias.

Record ShellState : Type := mkShell {
  shellname : string;
  terminator : string;
  aliases : list Alias;
  alias_count : nat
}.

Definition initial_shell : ShellState :=
  mkShell "myshell" ">" (replicate MAX_ALIASES null_alias) 0%nat.

(** The entries in use, in array order. *)
Definition table (s : ShellState) : list Alias :=
  take (alias_count s) (aliases s).

(** ** The machine around the shell *)

(** [stdin] is the input that has not been read yet.  It stands for a
    terminal or a pipe: a stream whose read position no process can
    move back, so that what a child does can only take characters away
    from it.  [stdout] and [stderr] hold what has been written, one
    chunk per call, whether or not the C library has flushed it. *)
Record Machine : Type := mkMachine {
  sh : ShellState;
  cwd : string;
  files : gmap string string;
  stdin : string;
  stdout : list string;
  stderr : list string
}.

Definition set_sh (s : ShellState) (m : Machine) : Machine :=
  mkMachine s (cwd m) (files m) (stdin m) (stdout m) (stderr m).
Definition set_cwd (d : string) (m : Machine) : Machine :=
  mkMachine (sh m) d (files m) (stdin m) (stdout m) (stderr m).
Definition set_files (f : gmap string string) (m : Machine) : Machine :=
  mkMachine (sh m) (cwd m) f (stdin m) (stdout m) (stderr m).
Definition set_stdin (i : string) (m : Machine) : Machine :=
  mkMachine (sh m) (cwd m) (files m) i (stdout m) (stderr m).

(** [printf(...)] and [fprintf(stderr, ...)]: one chunk per call. *)
Definition print (text : string) (m : Machine) : Machine :=
  mkMachine (sh m) (cwd m) (files m) (stdin m) (stdout m ++ [text]) (stderr m).
Definition eprint (text : string) (m : Machine) : Machine :=
  mkMachine (sh m) (cwd m) (files m) (stdin m) (stdout m) (stderr m ++ [text]).

(** What [waitpid] stores in [status]. *)
Inductive wstatus : Type :=
| WExited (code : Z)
| WSignaled (sig : Z)
| WStopped (sig : Z).

Definition WIFEXITED (s : wstatus) : bool :=
  match s with WExited _ => true | _ => false end.
Definition WIFSIGNALED (s : wstatus) : bool :=
  match s with WSignaled _ => true | _ => false end.

(** One call of [waitpid(pid, &status, WUNTRACED)]: it stores a status,
    or it fails (it returns -1, as with ECHILD when SIGCHLD is ignored,
    or with EINTR) and leaves [status] as it was.  The source does not
    look at the value returned. *)
Inductive wait_result : Type :=
| Reported (status : wstatus)
| Failed.

(** The life of a child whose [execvp] succeeded, as the parent can see
    it: the input it consumed, what it left in the files and on the
    shared output streams, and the successive results of [waitpid]
    (after the last of them, [waitpid] does not return any more). *)
Record ChildRun : Type := mkChildRun {
  child_consumed : nat;
  child_files : gmap string string;
  child_out : list string;
  child_err : list string;
  child_history : list wait_result
}.

(** The operating system. *)
Record OS : Type := mkOS {
  heap_grants : nat -> bool;
  os_resolve : string -> string -> string;
  os_chdir : string -> string -> option string;
  os_writable : string -> bool;
  os_strerror : Machine -> string;
  os_fork : Machine -> list string -> Z;
  os_execvp : Machine -> list string -> bool;
  os_child : Machine -> list string -> ChildRun;
  (** how many of the last chunks written to [stdout] are still in the
      buffer of the C library, which [fork] copies into the child *)
  os_unflushed : Machine -> nat;
  (** whether [waitpid] reports the end of a child whose [execvp]
      failed, rather than failing itself *)
  os_reaps : Machine -> list string -> bool;
  (** the value found in the local [status] of [lsh_launch] before
      anything was stored in it *)
  os_indeterminate : Machine -> list string -> wstatus
}.

Definition perror (os : OS) (tag : string) (m : Machine) : Machine :=
  eprint (tag ++ ": " ++ os_strerror os m ++ nl) m.

Definition EXIT_SUCCESS : Z := 0%Z.
Definition EXIT_FAILURE : Z := 1%Z.

(** ** Outcomes and the monad of C calls *)

(** What a call can come to: it returns [a]; it ends the process
    ([exit(status)], or [return status] from [main]); it replaces the
    process image ([execvp], in a child); it never returns because
    [waitpid] has nothing more to report; its behaviour is undefined
    (a write past the end of an array); or the model ran out of the
    fuel it was given for a loop. *)
Inductive Outcome (A : Type) : Type :=
| Ret (a : A) (m : Machine)
| Exit (status : Z) (m : Machine)
| Exec (argv : list string) (m : Machine)
| Blocked (m : Machine)
| Undefined
| OutOfFuel.

Arguments Ret {A} a m.
Arguments Exit {A} status m.
Arguments Exec {A} argv m.
Arguments Blocked {A} m.
Arguments Undefined {A}.
Arguments OutOfFuel {A}.

Definition M (A : Type) : Type := Machine -> Outcome A.

Definition ret {A} (a : A) : M A := fun m => Ret a m.

Definition bind {A B} (c : M A) (k : A -> M B) : M B :=
  fun m =>
    match c m with
    | Ret a m' => k a m'
    | Exit st m' => Exit st m'
    | Exec argv m' => Exec argv m'
    | Blocked m' => Blocked m'
    | Undefined => Undefined
    | OutOfFuel => OutOfFuel
    end.

Notation "'do' x <- c ; k" := (bind c (fun x => k))
  (at level 10, x name, c at level 100, k at level 200).
Notation "'run' c ; k" := (bind c (fun _ => k))
  (at level 10, c at level 100, k at level 200).

Definition effect (f : Machine -> Machine) : M unit := fun m => Ret tt (f m).
Definition exit {A} (status : Z) : M A := fun m => Exit status m.

(** ** Builtin commands *)

Definition dq : string := String "034"%char EmptyString.

(** [args[1] == NULL] is [args !! 1 = None]: the vector is the list of
    tokens and the NULL sentinel is its end. *)
Definition lsh_cd (os : OS) (args : list string) : M Z := fun m =>
  match args !! 1%nat with
  | None =>
      Ret 1%Z (eprint ("lsh: expected argument to " ++ dq ++ "cd" ++ dq ++ nl) m)
  | Some dir =>
      match os_chdir os (cwd m) dir with
      | Some d => Ret 1%Z (set_cwd d m)
      | None => Ret 1%Z (perror os "lsh" m)
      end
  end.

Definition help_text : list string :=
  [ "myshell - Available commands:" ++ nl;
    "HELP: Show this help message." ++ nl;
    "STOP: Terminate the shell session." ++ nl;
    "SETSHELLNAME <name>: Set the shell prompt name." ++ nl;
    "SETTERMINATOR <terminator>: Set the prompt terminator." ++ nl;
    "NEWNAME <new_name> <old_name>: Create an alias for a command." ++ nl;
    "LISTNEWNAMES: List all aliases." ++ nl;
    "SAVENEWNAMES <file_name>: Save aliases to a file." ++ nl;
    "READNEWNAMES <file_name>: Read aliases from a file." ++ nl;
    "<UNIX_command>: Execute any valid UNIX command." ++ nl ].

Definition lsh_help (os : OS) (args : list string) : M Z := fun m =>
  Ret 1%Z (fold_left (fun m' line => print line m') help_text m).

Definition lsh_exit (os : OS) (args : list string) : M Z := fun m => Ret 0%Z m.

Definition lsh_stop (os : OS) (args : list string) : M Z := fun m => Ret 0%Z m.

Definition setshellname (os : OS) (args : list string) : M Z := fun m =>
  let s := sh m in
  match args !! 1%nat with
  | None => Ret 1%Z (set_sh (mkShell "myshell" (terminator s) (aliases s) (alias_count s)) m)
  | Some name => Ret 1%Z (set_sh (mkShell name (terminator s) (aliases s) (alias_count s)) m)
  end.

Definition setterminator (os : OS) (args : list string) : M Z := fun m =>
  let s := sh m in
  match args !! 1%nat with
  | None => Ret 1%Z (set_sh (mkShell (shellname s) ">" (aliases s) (alias_count s)) m)
  | Some t => Ret 1%Z (set_sh (mkShell (shellname s) t (aliases s) (alias_count s)) m)
  end.

(** [for (i = i0; i < alias_count; i++) if (strcmp(aliases[i].new_name,
    name) == 0) ...]: [n] is the number of iterations left, the result
    is the index at which the loop is left early. *)
Fixpoint find_alias (n i : nat) (name : string) (arr : list Alias) : option nat :=
  match n with
  | O => None
  | S n' =>
      if String.eqb (new_name (arr !!! i)) name then Some i
      else find_alias n' (S i) name arr
  end.

(** [for (j = j0; j < alias_count - 1; j++) aliases[j] = aliases[j + 1];]
    with [n] iterations left. *)
Fixpoint shift_down (n j : nat) (arr : list Alias) : list Alias :=
  match n with
  | O => arr
  | S n' => shift_down n' (S j) (<[j := arr !!! S j]> arr)
  end.

Definition newname (os : OS) (args : list string) : M Z := fun m =>
  let s := sh m in
  match args !! 1%nat with
  | None =>
      Ret 1%Z (eprint ("Error: expected 1 or 2 arguments to " ++ dq ++ "newname" ++ dq ++ nl) m)
  | Some a1 =>
      match args !! 2%nat with
      | None =>
          match find_alias (alias_count s) 0 a1 (aliases s) with
          | Some i =>
              Ret 1%Z (set_sh (mkShell (shellname s) (terminator s)
                                 (shift_down (alias_count s - 1 - i) i (aliases s))
                                 (alias_count s - 1)) m)
          | None => Ret 1%Z (eprint ("Alias not found: " ++ a1 ++ nl) m)
          end
      | Some a2 =>
          if (alias_count s <? MAX_ALIASES)%nat then
            Ret 1%Z (set_sh (mkShell (shellname s) (terminator s)
                               (<[alias_count s := mkAlias a1 a2]> (aliases s))
                               (S (alias_count s))) m)
          else Ret 1%Z (eprint ("Maximum number of aliases reached." ++ nl) m)
      end
  end.

(** [for (i = i0; i < alias_count; i++) printf("%s -> %s\n", ...)]. *)
Fixpoint list_loop (n i : nat) (arr : list Alias) (m : Machine) : Machine :=
  match n with
  | O => m
  | S n' =>
      list_loop n' (S i) arr
        (print (new_name (arr !!! i) ++ " -> " ++ old_name (arr !!! i) ++ nl) m)
  end.

Definition listnewnames (os : OS) (args : list string) : M Z := fun m =>
  Ret 1%Z (list_loop (alias_count (sh m)) 0 (aliases (sh m)) m).

(** [for (i = i0; i < alias_count; i++) fprintf(file, "%s %s\n", ...)]:
    the text appended to the file. *)
Fixpoint save_loop (n i : nat) (arr : list Alias) : string :=
  match n with
  | O => EmptyString
  | S n' =>
      (new_name (arr !!! i) ++ " " ++ old_name (arr !!! i) ++ nl)
      ++ save_loop n' (S i) arr
  end.

(** [fopen(path, "w")] creates or truncates the file when the system
    allows it; the file then holds what was written until [fclose]. *)
Definition savenewnames (os : OS) (args : list string) : M Z := fun m =>
  match args !! 1%nat with
  | None =>
      Ret 1%Z (eprint ("Error: argument 1 expected to " ++ dq ++ "SAVENEWNAMES" ++ dq ++ nl) m)
  | Some path =>
      let p := os_resolve os (cwd m) path in
      if os_writable os p then
        Ret 1%Z (set_files
                   (<[p := save_loop (alias_count (sh m)) 0 (aliases (sh m))]> (files m)) m)
      else Ret 1%Z (perror os "Error opening file" m)
  end.

(** *** readnewnames *)

(** [char new_name[256], old_name[256];] *)
Definition NAME_BUFSIZE : nat := 256.

(** A token fits its buffer when there is room for it and its NUL. *)
Definition fits (tok : string) : bool :=
  (String.length tok <? NAME_BUFSIZE)%nat.

(** The result of [fscanf(file, "%s %s", new_name, old_name)] and the
    position of the file afterwards.  A token that does not fit its
    buffer is written past the end of the array. *)
Inductive scan_result : Type :=
| ScanEOF (rest : string)
| ScanOne (rest : string)
| ScanTwo (a b : string) (rest : string)
| ScanOverrun.

Definition fscanf_s_s (stream : string) : scan_result :=
  match scan_s stream with
  | None => ScanEOF (skip isspace stream)
  | Some (t1, r1) =>
      if fits t1 then
        match scan_s (skip isspace r1) with
        | None => ScanOne (skip isspace (skip isspace r1))
        | Some (t2, r2) => if fits t2 then ScanTwo t1 t2 r2 else ScanOverrun
        end
      else ScanOverrun
  end.

(** [while (fscanf(...) == 2) { if (alias_count < MAX_ALIASES) {...} }];
    the value returned is the position of the file when the loop is
    left. *)
Fixpoint read_loop (fuel : nat) (stream : string) : M string := fun m =>
  match fuel with
  | O => OutOfFuel
  | S fuel' =>
      match fscanf_s_s stream with
      | ScanTwo a b rest =>
          let s := sh m in
          if (alias_count s <? MAX_ALIASES)%nat then
            read_loop fuel' rest
              (set_sh (mkShell (shellname s) (terminator s)
                         (<[alias_count s := mkAlias (cstr a) (cstr b)]> (aliases s))
                         (S (alias_count s))) m)
          else read_loop fuel' rest m
      | ScanEOF rest | ScanOne rest => Ret rest m
      | ScanOverrun => Undefined
      end
  end.

Definition readnewnames (os : OS) (args : list string) : M Z := fun m =>
  match args !! 1%nat with
  | None =>
      Ret 1%Z (eprint ("Error: argument 1 expected to " ++ dq ++ "READNEWNAMES" ++ dq ++ nl) m)
  | Some path =>
      match files m !! os_resolve os (cwd m) path with
      | None => Ret 1%Z (perror os "Error opening file" m)
      | Some content =>
          (run read_loop (S (String.length content)) content; ret 1%Z) m
      end
  end.

(** ** Launching a program *)

(** [do { waitpid(pid, &status, WUNTRACED); } while (!WIFEXITED(status)
    && !WIFSIGNALED(status));] over the successive results of
    [waitpid], [status] being the content of the variable before the
    call: a call that fails leaves it alone, and the test is made on
    whatever it holds.  The result is [true] when the loop is left,
    [false] when the call never returns (the parent stays in
    [waitpid]). *)
Fixpoint wait_loop (status : wstatus) (results : list wait_result) : bool :=
  match results with
  | [] => false
  | result :: results' =>
      let status' :=
        match result with
        | Reported s => s
        | Failed => status
        end in
      if negb (WIFEXITED status') && negb (WIFSIGNALED status')
      then wait_loop status' results'
      else true
  end.

(** What the parent finds once a child whose [execvp] succeeded is
    gone. *)
Definition after_child (r : ChildRun) (m : Machine) : Machine :=
  mkMachine (sh m) (cwd m) (child_files r)
            (string_of_list_ascii (drop (child_consumed r) (list_ascii_of_string (stdin m))))
            (stdout m ++ child_out r) (stderr m ++ child_err r).

(** [perror("lsh"); exit(EXIT_FAILURE);] in a child whose [execvp]
    failed: the reason goes to the error stream, and [exit] flushes the
    child's copy of the buffer of [stdout], so that what the shell had
    written and not yet flushed when it forked (the prompt, when the
    output is a pipe or a file) is written once more.  The input being
    a terminal or a pipe (see [Machine]), [exit] cannot move the read
    position that the child shares with the shell. *)
Definition child_exit (os : OS) (m : Machine) : Machine :=
  mkMachine (sh m) (cwd m) (files m) (stdin m)
            (stdout m ++ drop (length (stdout m) - os_unflushed os m) (stdout m))
            (stderr m ++ ["lsh: " ++ os_strerror os m ++ nl]).

(** The results of [waitpid] for a child whose [execvp] failed: the
    child ends at once, and [waitpid] reports it unless it fails. *)
Definition failed_exec_history (os : OS) (args : list string) (m : Machine)
    : list wait_result :=
  [ if os_reaps os m args then Reported (WExited EXIT_FAILURE) else Failed ].

(** [lsh_launch] in the process where [fork] returned [pid].  In the
    child ([pid == 0]) the image is replaced, or [perror] and
    [exit(EXIT_FAILURE)] end it.  In the parent, the output streams are
    shared with the child, so what a child whose [execvp] failed has
    written is on them when the parent goes on; [status] is not
    initialised before the loop. *)
Definition lsh_launch (os : OS) (args : list string) : M Z := fun m =>
  let pid := os_fork os m args in
  if (pid =? 0)%Z then
    if os_execvp os m args then Exec args m
    else Exit EXIT_FAILURE (child_exit os m)
  else if (pid <? 0)%Z then
    Ret 1%Z (perror os "lsh" m)
  else
    let m1 := if os_execvp os m args
              then after_child (os_child os m args) m
              else child_exit os m in
    let results := if os_execvp os m args
                   then child_history (os_child os m args)
                   else failed_exec_history os args m in
    if wait_loop (os_indeterminate os m args) results then Ret 1%Z m1
    else Blocked m1.

(** ** Dispatch *)

Definition builtin_str : list string :=
  [ "cd"; "help"; "exit"; "setshellname"; "setterminator"; "newname";
    "listnewnames"; "savenewnames"; "readnewnames"; "STOP" ].

Definition builtin_func : list (OS -> list string -> M Z) :=
  [ lsh_cd; lsh_help; lsh_exit; setshellname; setterminator; newname;
    listnewnames; savenewnames; readnewnames; lsh_stop ].

Definition lsh_num_builtins : nat := length builtin_str.

(** [for (i = i0; i < lsh_num_builtins(); i++) if (strcmp(args[0],
    builtin_str[i]) == 0) ...] with [n] iterations left. *)
Fixpoint find_builtin (n i : nat) (name : string) : option nat :=
  match n with
  | O => None
  | S n' =>
      if String.eqb name (builtin_str !!! i) then Some i
      else find_builtin n' (S i) name
  end.

(** [args[0] == NULL] is the empty list.  The assignment [args[0] =
    aliases[i].old_name] replaces the head of the list; [break] leaves
    the scan at the first match. *)
Definition lsh_execute (os : OS) (args : list string) : M Z := fun m =>
  match args with
  | [] => Ret 1%Z m
  | a0 :: rest =>
      let s := sh m in
      let a0' :=
        match find_alias (alias_count s) 0 a0 (aliases s) with
        | Some i => old_name (aliases s !!! i)
        | None => a0
        end in
      match find_builtin lsh_num_builtins 0 a0' with
      | Some i =>
          match builtin_func !! i with
          | Some f => f os (a0' :: rest) m
          | None => Undefined
          end
      | None => lsh_launch os (a0' :: rest) m
      end
  end.

(** ** Reading and splitting a line *)

Definition LSH_RL_BUFSIZE : nat := 1024.
Definition LSH_TOK_BUFSIZE : nat := 64.
(** The size of a pointer to [char] on an LP64 system. *)
Definition sizeof_char_ptr : nat := 8.

Definition alloc_error : string := "lsh: allocation error" ++ nl.

(** The [while (1)] of [lsh_read_line], by recursion on the input that
    is left: [buffer] holds the [position] characters stored so far. *)
Fixpoint read_chars (os : OS) (input buffer : string) (bufsize : nat)
    (m : Machine) : Outcome string :=
  match input with
  | EmptyString => Exit EXIT_SUCCESS (set_stdin EmptyString m)
  | String c input' =>
      if Ascii.eqb c LF then Ret (cstr buffer) (set_stdin input' m)
      else
        let buffer' := buffer ++ String c EmptyString in
        let position := String.length buffer' in
        if (bufsize <=? position)%nat then
          let bufsize' := (bufsize + LSH_RL_BUFSIZE)%nat in
          if heap_grants os bufsize' then read_chars os input' buffer' bufsize' m
          else Exit EXIT_FAILURE (eprint alloc_error (set_stdin input' m))
        else read_chars os input' buffer' bufsize m
  end.

Definition lsh_read_line (os : OS) : M string := fun m =>
  if heap_grants os LSH_RL_BUFSIZE
  then read_chars os (stdin m) EmptyString LSH_RL_BUFSIZE m
  else Exit EXIT_FAILURE (eprint alloc_error m).

(** The [while (token != NULL)] of [lsh_split_line]: [text] is what
    [strtok] has still to look at, [tokens] the [position] words stored
    so far. *)
Fixpoint split_loop (os : OS) (fuel : nat) (text : string)
    (tokens : list string) (bufsize : nat) : M (list string) := fun m =>
  match fuel with
  | O => OutOfFuel
  | S fuel' =>
      match strtok text with
      | None => Ret tokens m
      | Some (token, text') =>
          let tokens' := (tokens ++ [token])%list in
          let position := length tokens' in
          if (bufsize <=? position)%nat then
            let bufsize' := (bufsize + LSH_TOK_BUFSIZE)%nat in
            if heap_grants os (bufsize' * sizeof_char_ptr)
            then split_loop os fuel' text' tokens' bufsize' m
            else Exit EXIT_FAILURE (eprint alloc_error m)
          else split_loop os fuel' text' tokens' bufsize m
      end
  end.

Definition lsh_split_line (os : OS) (line : string) : M (list string) := fun m =>
  if heap_grants os (LSH_TOK_BUFSIZE * sizeof_char_ptr)
  then split_loop os (S (String.length line)) line [] LSH_TOK_BUFSIZE m
  else Exit EXIT_FAILURE (eprint alloc_error m).

(** ** The loop and [main] *)

Definition prompt (s : ShellState) : string :=
  shellname s ++ terminator s ++ " ".

(** [do { ... } while (status);] with [fuel] bounding the number of
    lines read. *)
Fixpoint lsh_loop (os : OS) (fuel : nat) : M unit := fun m =>
  match fuel with
  | O => OutOfFuel
  | S fuel' =>
      (run effect (fun m => print (prompt (sh m)) m);
       do line <- lsh_read_line os;
       do args <- lsh_split_line os line;
       do status <- lsh_execute os args;
       if (status =? 0)%Z then ret tt else lsh_loop os fuel') m
  end.

(** Every pass of the loop takes at least one character from the
    input, or ends the process at its end. *)
Definition main (os : OS) : M Z := fun m =>
  (run lsh_loop os (S (String.length (stdin m))); exit EXIT_SUCCESS) m.

Definition initial_machine (dir : string) (fs : gmap string string)
    (input : string) : Machine :=
  mkMachine initial_shell dir fs input [] [].

(** ** Definitions used to state the properties *)

(** The array has its declared size and the count is within it. *)
Definition wf_shell (s : ShellState) : Prop :=
  length (aliases s) = MAX_ALIASES /\ (alias_count s <= MAX_ALIASES)%nat.

(** Alias resolution as the specification words it: the target of the
    first entry, in insertion order, whose [new_name] is [name]. *)
Fixpoint resolve (name : string) (tbl : list Alias) : option string :=
  match tbl with
  | [] => None
  | a :: tbl' =>
      if String.eqb name (new_name a) then Some (old_name a)
      else resolve name tbl'
  end.

(** The builtin registry as the specification words it: a mapping from
    command name to handler, looked up by exact string equality. *)
Definition builtin_registry : list (string * (OS -> list string -> M Z)) :=
  [ ("cd", lsh_cd); ("help", lsh_help); ("exit", lsh_exit);
    ("setshellname", setshellname); ("setterminator", setterminator);
    ("newname", newname); ("listnewnames", listnewnames);
    ("savenewnames", savenewnames); ("readnewnames", readnewnames);
    ("STOP", lsh_stop) ].

Fixpoint registry_lookup (name : string)
    (reg : list (string * (OS -> list string -> M Z)))
    : option (OS -> list string -> M Z) :=
  match reg with
  | [] => None
  | (n, h) :: reg' => if String.eqb name n then Some h else registry_lookup name reg'
  end.

(** Steps 3 and 4 of the dispatcher on a command whose first word has
    already been through alias substitution. *)
Definition run_resolved (os : OS) (name : string) (rest : list string) : M Z :=
  match registry_lookup name builtin_registry with
  | Some handler => handler os (name :: rest)
  | None => lsh_launch os (name :: rest)
  end.

(** ** Words, pairs and the capacity rule *)

(** The maximal runs of characters of [s] that do not satisfy [p], in
    order: the white-space-delimited tokens of a text when [p] is
    [isspace]. *)
Fixpoint words (p : ascii -> bool) (s : string) : list string :=
  match s with
  | EmptyString => []
  | String c s' =>
      if p c then words p s'
      else
        match s' with
        | EmptyString => [String c EmptyString]
        | String c' _ =>
            if p c' then String c EmptyString :: words p s'
            else
              match words p s' with
              | w :: ws => String c w :: ws
              | [] => [String c EmptyString]
              end
        end
  end.

(** Consecutive tokens two by two; a last token without partner is
    dropped. *)
Fixpoint pairs (ws : list string) : list (string * string) :=
  match ws with
  | a :: b :: ws' => (a, b) :: pairs ws'
  | _ => []
  end.

(** The capacity rule of [define] on the shell state: append when there
    is room, otherwise change nothing. *)
Definition add_alias (s : ShellState) (n o : string) : ShellState :=
  if (alias_count s <? MAX_ALIASES)%nat then
    mkShell (shellname s) (terminator s)
            (<[alias_count s := mkAlias n o]> (aliases s)) (S (alias_count s))
  else s.

(** What the buffers of [readnewnames] hold is copied with [strdup]. *)
Definition load_pairs (s : ShellState) (ps : list (string * string)) : ShellState :=
  fold_left (fun s' p => add_alias s' (cstr (fst p)) (cstr (snd p))) ps s.

(** Every token of every file fits the buffers of [readnewnames]. *)
Definition files_fit (m : Machine) : Prop :=
  map_Forall (fun _ content => forallb fits (words isspace content) = true) (files m).

(** Sequences of definitions and loads. *)
Inductive alias_cmd : Type :=
| Define (n o : string)
| Load (path : string).

Definition run_cmd (os : OS) (c : alias_cmd) : M Z :=
  match c with
  | Define n o => newname os ["newname"; n; o]
  | Load path => readnewnames os ["readnewnames"; path]
  end.

Fixpoint run_cmds (os : OS) (cs : list alias_cmd) : M unit :=
  match cs with
  | [] => ret tt
  | c :: cs' => (run run_cmd os c; run_cmds os cs')
  end.

(** ** The persistence format *)

Fixpoint all_chars (p : ascii -> bool) (s : string) : bool :=
  match s with
  | EmptyString => true
  | String c s' => p c && all_chars p s'
  end.

(** A name that the format can carry: not empty and free of white
    space (and of NUL, as every C string). *)
Definition plain_name (n : string) : bool :=
  match n with EmptyString => false | String _ _ => true end
  && all_chars (fun c => negb (isspace c) && negb (Ascii.eqb c NUL)) n.

(** A name that the format can carry and that the buffers of
    [readnewnames] can hold. *)
Definition name_ok (n : string) : bool := plain_name n && fits n.

Definition entry_ok (a : Alias) : Prop :=
  name_ok (new_name a) = true /\ name_ok (old_name a) = true.

(** The file as the specification words it: one line
    "<new_name> <old_name>\n" per alias, in table order. *)
Fixpoint save_text (tbl : list Alias) : string :=
  match tbl with
  | [] => EmptyString
  | a :: tbl' => (new_name a ++ " " ++ old_name a ++ nl) ++ save_text tbl'
  end.

(** [savenewnames path] followed by [readnewnames path] in a shell whose
    table is empty. *)
Definition save_then_load (os : OS) (path : string) : M Z :=
  do _ <- savenewnames os ["savenewnames"; path];
  do _ <- effect (set_sh initial_shell);
  readnewnames os ["readnewnames"; path].

(** ** Outcomes of one command and of the loop *)

(** A command that neither ends the process nor adds to the input: it
    returns, or it waits for a child for ever, or its behaviour is
    undefined. *)
Definition keeps_running (m : Machine) (o : Outcome Z) : Prop :=
  match o with
  | Ret _ m' => (String.length (stdin m') <= String.length (stdin m))%nat
  | Blocked _ | Undefined => True
  | Exit _ _ | Exec _ _ | OutOfFuel => False
  end.

(** A run of the loop in which the process, if it ends, ends with
    [EXIT_SUCCESS]. *)
Definition ends_with_success {A : Type} (o : Outcome A) : Prop :=
  match o with
  | Ret _ _ | Blocked _ | Undefined => True
  | Exit status _ => status = EXIT_SUCCESS
  | Exec _ _ | OutOfFuel => False
  end.

(** No character of [s] is a newline. *)
Definition no_newline (s : string) : bool :=
  all_chars (fun c => negb (Ascii.eqb c LF)) s.

(** A command that leaves the alias array at its declared size and the
    count within it. *)
Definition keeps_wf (m : Machine) (o : Outcome Z) : Prop :=
  match o with
  | Ret _ m' => wf_shell (sh m) -> wf_shell (sh m')
  | _ => True
  end.

(** ** Sample systems and states, used to instantiate the properties *)

(** A system that grants every request and in which every program runs,
    is stopped once, and exits. *)
Definition sample_os : OS :=
  mkOS (fun _ => true)
       (fun dir path => dir ++ "/" ++ path)
       (fun _ path => Some path)
       (fun _ => true)
       (fun _ => "No such file or directory")
       (fun _ _ => 100%Z)
       (fun _ _ => true)
       (fun m _ => mkChildRun 0 (files m) [] [] [Reported (WStopped 19); Reported (WExited 0)])
       (fun _ => 0%nat)
       (fun _ _ => true)
       (fun _ _ => WStopped 0).

(** The shell whose table holds the entries of [tbl] (at most
    [MAX_ALIASES] of them), the other slots never written. *)
Definition shell_of_table (tbl : list Alias) : ShellState :=
  mkShell "myshell" ">"
    (tbl ++ replicate (MAX_ALIASES - length tbl) null_alias)%list
    (length tbl).

Definition machine_of_table (tbl : list Alias) (input : string) : Machine :=
  mkMachine (shell_of_table tbl) "/home" ∅ input [] [].

(** [exit] is an alias of [ls], and [ls] an alias of [pwd]. *)
Definition shadowing_table : list Alias :=
  [ mkAlias "exit" "ls"; mkAlias "ls" "pwd" ].

(** [ll] is defined twice. *)
Definition duplicate_table : list Alias :=
  [ mkAlias "g" "grep"; mkAlias "ll" "ls"; mkAlias "h" "help"; mkAlias "ll" "dir" ].

Definition duplicate_machine : Machine := machine_of_table duplicate_table EmptyString.

(** A system in which [fork] fails. *)
Definition no_fork_os : OS :=
  mkOS (fun _ => true) (fun dir path => path) (fun _ path => Some path)
       (fun _ => true) (fun _ => "Resource temporarily unavailable")
       (fun _ _ => (-1)%Z) (fun _ _ => false)
       (fun m _ => mkChildRun 0 (files m) [] [] [])
       (fun _ => 0%nat)
       (fun _ _ => true)
       (fun _ _ => WStopped 0).

(** A file of three pairs, and machines that hold it. *)
Definition names_file : string :=
  "ll ls" ++ nl ++ "g grep" ++ nl ++ "h help" ++ nl.

Definition names_machine (tbl : list Alias) : Machine :=
  mkMachine (shell_of_table tbl) "/home" {[ "/home/names" := names_file ]}
            EmptyString [] [].

Definition full_table : list Alias :=
  [ mkAlias "a0" "ls"; mkAlias "a1" "ls"; mkAlias "a2" "ls"; mkAlias "a3" "ls";
    mkAlias "a4" "ls"; mkAlias "a5" "ls"; mkAlias "a6" "ls"; mkAlias "a7" "ls";
    mkAlias "a8" "ls"; mkAlias "a9" "ls" ].

Definition nine_defines_and_a_load : list alias_cmd :=
  [ Define "a" "ls"; Define "b" "ls"; Define "c" "ls"; Define "d" "ls";
    Define "e" "ls"; Define "f" "ls"; Define "a" "pwd"; Define "i" "ls";
    Define "j" "ls"; Load "names"; Define "k" "ls" ].

(** A name of 256 letters, typed on one line of input. *)
Definition long_name : string :=
  string_of_list_ascii (replicate NAME_BUFSIZE "a"%char).

Definition long_name_machine : Machine :=
  machine_of_table [mkAlias long_name "ls"] EmptyString.

(** [q] is an alias of [exit]; the input is the line "q now" followed
    by text that is never read. *)
Definition quit_machine : Machine :=
  machine_of_table [mkAlias "q" "exit"] ("q now" ++ nl ++ "ls").

(** The two lines of the prompt scenario. *)
Definition prompt_scenario : string :=
  "setshellname bob" ++ nl ++ "setterminator $" ++ nl.

(** ** Definitions for the further properties *)

(** The characters of [s] that satisfy [p], in order. *)
Fixpoint filter_chars (p : ascii -> bool) (s : string) : string :=
  match s with
  | EmptyString => EmptyString
  | String c s' => if p c then String c (filter_chars p s') else filter_chars p s'
  end.

Definition concat_words (ws : list string) : string :=
  fold_right String.append EmptyString ws.

(** The command name once alias substitution is done. *)
Definition resolved_name (m : Machine) (name : string) : string :=
  match resolve name (table (sh m)) with
  | Some target => target
  | None => name
  end.

(** One line of [listnewnames]. *)
Definition alias_line (a : Alias) : string :=
  new_name a ++ " -> " ++ old_name a ++ nl.

(** The entry that [readnewnames] stores for a pair of tokens. *)
Definition alias_of_pair (p : string * string) : Alias :=
  mkAlias (cstr (fst p)) (cstr (snd p)).

(** A system that grants a request of [n] bytes exactly when [n] is at
    most [limit], and in which [fork] returns 0: the process is a
    child that was just forked, and its [execvp] fails. *)
Definition limited_os (limit : nat) : OS :=
  mkOS (fun n => (n <=? limit)%nat)
       (fun dir path => dir ++ "/" ++ path)
       (fun _ _ => None)
       (fun _ => false)
       (fun _ => "Permission denied")
       (fun _ _ => 0%Z)
       (fun _ _ => false)
       (fun m _ => mkChildRun 0 (files m) [] [] [])
       (fun _ => 0%nat)
       (fun _ _ => true)
       (fun _ _ => WStopped 0).

(** [n] copies of the character [c]. *)
Definition repeat_char (c : ascii) (n : nat) : string :=
  string_of_list_ascii (replicate n c).

(** A line of [n] one-letter words. *)
Fixpoint many_words (n : nat) : string :=
  match n with
  | O => EmptyString
  | S n' => "w " ++ many_words n'
  end.

(** The machine of [long_name_machine] once its table has been saved. *)
Definition long_file_machine : Machine :=
  set_files {[ "/home/names" := long_name ++ " ls" ++ nl ]} long_name_machine.

(** A system that grants every request, seen from a child that was just
    forked and whose [execvp] fails. *)
Definition forked_child_os : OS :=
  mkOS (fun _ => true) (fun dir path => dir ++ "/" ++ path) (fun _ path => Some path)
       (fun _ => true) (fun _ => "No such file or directory")
       (fun _ _ => 0%Z) (fun _ _ => false)
       (fun m _ => mkChildRun 0 (files m) [] [] [])
       (fun _ => 0%nat)
       (fun _ _ => true)
       (fun _ _ => WStopped 0).





(** A line taken apart: [join_words] puts tokens and the delimiter runs
    that follow them end to end; [separated p tws] holds when every
    token is non-empty and free of the characters [p], every run is
    made of them, and every run but the last is non-empty. *)
Definition non_empty (s : string) : bool :=
  match s with EmptyString => false | String _ _ => true end.

Fixpoint join_words (tws : list (string * string)) : string :=
  match tws with
  | [] => EmptyString
  | (w, d) :: rest => w ++ d ++ join_words rest
  end.

Fixpoint separated (p : ascii -> bool) (tws : list (string * string)) : bool :=
  match tws with
  | [] => true
  | (w, d) :: rest =>
      non_empty w && all_chars (fun c => negb (p c)) w && all_chars p d
      && match rest with [] => true | _ :: _ => non_empty d end
      && separated p rest
  end.

(** * Properties *)

Local Open Scope list_scope.

(** Projections of explicit records and of the field updates. *)
Ltac simpl_machine :=
  cbn [sh cwd files stdin stdout stderr shellname terminator aliases alias_count
       set_sh set_cwd set_files set_stdin print eprint perror] in *.

(** ** The alias array and its table *)

Lemma wf_initial_shell : wf_shell initial_shell.
Proof. split; simpl; [reflexivity | unfold MAX_ALIASES; lia]. Qed.

Lemma wf_count_le_length (s : ShellState) :
  wf_shell s -> (alias_count s <= length (aliases s))%nat.
Proof. intros [Hl Hc]. lia. Qed.

Lemma take_drop_cons (arr : list Alias) (n i : nat) :
  (i < length arr)%nat ->
  take (S n) (drop i arr) = (arr !!! i) :: take n (drop (S i) arr).
Proof.
  intros Hi. destruct (lookup_lt_is_Some_2 arr i Hi) as [x Hx].
  rewrite (drop_S _ _ _ Hx). simpl.
  by rewrite (list_lookup_total_correct _ _ _ Hx).
Qed.

(** The early-exit scan of the array is resolution on the table. *)
Lemma find_alias_resolve (name : string) (arr : list Alias) (n i : nat) :
  (i + n <= length arr)%nat ->
  (fun k => old_name (arr !!! k)) <$> find_alias n i name arr
  = resolve name (take n (drop i arr)).
Proof.
  revert i. induction n as [|n IH]; intros i Hi; simpl.
  - reflexivity.
  - rewrite take_drop_cons by lia. simpl.
    rewrite (String.eqb_sym name).
    destruct (String.eqb (new_name (arr !!! i)) name); [reflexivity|].
    apply IH. lia.
Qed.

Lemma find_alias_first (name : string) (arr : list Alias) (l1 l2 : list Alias)
    (a : Alias) (n i : nat) :
  (i + n <= length arr)%nat ->
  take n (drop i arr) = l1 ++ a :: l2 ->
  Forall (fun b => new_name b <> name) l1 ->
  new_name a = name ->
  find_alias n i name arr = Some (i + length l1)%nat.
Proof.
  revert n i. induction l1 as [|b l1 IH]; intros n i Hi Ht Hl1 Ha.
  - destruct n as [|n]; [discriminate|].
    rewrite take_drop_cons in Ht by lia. simpl in Ht. injection Ht as Hh _.
    simpl. rewrite Hh, Ha, String.eqb_refl. f_equal. lia.
  - destruct n as [|n]; [discriminate|].
    rewrite take_drop_cons in Ht by lia. simpl in Ht. injection Ht as Hh Ht.
    inversion Hl1 as [|? ? Hb Hl1']; subst.
    simpl. destruct (String.eqb_spec (new_name (arr !!! i)) (new_name a)) as [E|_].
    + congruence.
    + rewrite (IH n (S i)); [f_equal; lia | lia | assumption | assumption | reflexivity].
Qed.

Lemma find_alias_none (name : string) (arr : list Alias) (n i : nat) :
  (i + n <= length arr)%nat ->
  Forall (fun b => new_name b <> name) (take n (drop i arr)) ->
  find_alias n i name arr = None.
Proof.
  revert i. induction n as [|n IH]; intros i Hi Hall; [reflexivity|].
  rewrite take_drop_cons in Hall by lia.
  inversion Hall as [|? ? Hb Hall']; subst. simpl.
  destruct (String.eqb_spec (new_name (arr !!! i)) name) as [E|_]; [contradiction|].
  apply IH; [lia | assumption].
Qed.

(** The shifting loop moves the [n] entries after slot [j] one slot
    down and leaves every other slot as it was. *)
Lemma shift_down_lookup (arr : list Alias) (n j k : nat) :
  (j + n < length arr)%nat ->
  shift_down n j arr !! k
  = if decide (j <= k < j + n)%nat then arr !! S k else arr !! k.
Proof.
  revert j arr. induction n as [|n IH]; intros j arr Hj; simpl.
  - case_decide; [lia | reflexivity].
  - rewrite IH by (rewrite length_insert; lia).
    assert (Hsj : arr !! S j = Some (arr !!! S j)).
    { apply list_lookup_lookup_total_lt. lia. }
    repeat case_decide; try lia.
    + rewrite list_lookup_insert_ne by lia. reflexivity.
    + assert (k = j) by lia. subst k.
      rewrite list_lookup_insert_eq by lia. symmetry. exact Hsj.
    + rewrite list_lookup_insert_ne by lia. reflexivity.
Qed.

Lemma length_shift_down (arr : list Alias) (n j : nat) :
  length (shift_down n j arr) = length arr.
Proof.
  revert j arr. induction n as [|n IH]; intros j arr; simpl; [reflexivity|].
  rewrite IH. apply length_insert.
Qed.

(** On the table, the shifting loop followed by [alias_count--] is the
    removal of one entry. *)
Lemma shift_down_table (arr l1 l2 : list Alias) (a : Alias) (count : nat) :
  (count <= length arr)%nat ->
  take count arr = l1 ++ a :: l2 ->
  take (count - 1) (shift_down (count - 1 - length l1) (length l1) arr) = l1 ++ l2.
Proof.
  intros Hc Ht.
  assert (Hlen : count = (length l1 + S (length l2))%nat).
  { apply (f_equal length) in Ht. rewrite length_take, length_app in Ht.
    simpl in Ht. lia. }
  apply list_eq. intros k.
  destruct (decide (k < count - 1)%nat) as [Hk|Hk].
  - rewrite lookup_take_lt by lia.
    rewrite shift_down_lookup by lia.
    case_decide as Hin.
    + rewrite <- (lookup_take_lt arr count (S k)) by lia. rewrite Ht.
      rewrite lookup_app_r by lia. rewrite lookup_app_r by lia.
      replace (S k - length l1)%nat with (S (k - length l1)) by lia. reflexivity.
    + rewrite <- (lookup_take_lt arr count k) by lia. rewrite Ht.
      rewrite !lookup_app_l by lia. reflexivity.
  - rewrite lookup_take_ge by lia. symmetry. apply lookup_ge_None.
    rewrite length_app. lia.
Qed.

(** ** Dispatch *)

(** The two parallel arrays of the source are the registry. *)
Lemma find_builtin_registry (name : string) :
  match find_builtin lsh_num_builtins 0 name with
  | Some i => builtin_func !! i
  | None => None
  end = registry_lookup name builtin_registry
  /\ (forall i, find_builtin lsh_num_builtins 0 name = Some i ->
        is_Some (builtin_func !! i)).
Proof.
  unfold lsh_num_builtins, builtin_str, builtin_registry. cbn.
  repeat (match goal with
          | |- context [String.eqb name ?s] => destruct (String.eqb name s)
          end; cbn);
    (split; [reflexivity | intros i Hi; inversion Hi; subst; cbn; eauto]).
Qed.

Lemma lsh_execute_resolved (os : OS) (name : string) (rest : list string) (m : Machine) :
  match find_builtin lsh_num_builtins 0 name with
  | Some i =>
      match builtin_func !! i with
      | Some f => f os (name :: rest) m
      | None => Undefined
      end
  | None => lsh_launch os (name :: rest) m
  end = run_resolved os name rest m.
Proof.
  unfold run_resolved.
  destruct (find_builtin_registry name) as [Hreg Hsome].
  unfold M in *.
  destruct (find_builtin lsh_num_builtins 0 name) as [i|].
  - destruct (Hsome i eq_refl) as [f Hf].
    rewrite Hf in Hreg. rewrite <- Hreg. simpl. rewrite Hf. reflexivity.
  - rewrite <- Hreg. reflexivity.
Qed.

(** Alias substitution comes first and happens once; the builtin
    registry and the launcher see the rewritten name. *)
Lemma lsh_execute_run_resolved
    (os : OS) (t0 : string) (rest : list string) (m : Machine) :
  wf_shell (sh m) ->
  lsh_execute os (t0 :: rest) m
  = run_resolved os
      (match resolve t0 (table (sh m)) with
       | Some target => target
       | None => t0
       end) rest m.
Proof.
  intros Hwf. apply wf_count_le_length in Hwf.
  unfold lsh_execute, table.
  pose proof (find_alias_resolve t0 (aliases (sh m)) (alias_count (sh m)) 0) as Hres.
  rewrite drop_0 in Hres. rewrite <- Hres by (simpl; lia).
  destruct (find_alias (alias_count (sh m)) 0 t0 (aliases (sh m))) as [i|]; simpl;
    apply lsh_execute_resolved.
Qed.

(** C1.  For a non-empty token sequence, [lsh_execute] first rewrites
    [tokens[0]] through the alias table (first match in insertion
    order, one substitution, the result not looked up again), then
    checks the rewritten name against the builtin registry by exact
    string equality, and hands the sequence to the launcher only when
    no builtin matches.  Since resolution is applied to [tokens[0]]
    before any builtin is considered, an alias whose name is also a
    builtin name wins. *)
Theorem lsh_execute_alias_then_builtin_then_launch
    (os : OS) (t0 : string) (rest : list string) (m : Machine) :
  wf_shell (sh m) ->
  lsh_execute os (t0 :: rest) m
  = run_resolved os
      (match resolve t0 (table (sh m)) with
       | Some target => target
       | None => t0
       end) rest m
  /\ (forall target,
        resolve t0 (table (sh m)) = Some target ->
        lsh_execute os (t0 :: rest) m
        = match registry_lookup target builtin_registry with
          | Some handler => handler os (target :: rest) m
          | None => lsh_launch os (target :: rest) m
          end)
  /\ (resolve t0 (table (sh m)) = None ->
      lsh_execute os (t0 :: rest) m
      = match registry_lookup t0 builtin_registry with
        | Some handler => handler os (t0 :: rest) m
        | None => lsh_launch os (t0 :: rest) m
        end).
Proof.
  intros Hwf.
  pose proof (lsh_execute_run_resolved os t0 rest m Hwf) as Hrun.
  split; [exact Hrun|]. split.
  - intros target Hres. rewrite Hrun, Hres. unfold run_resolved.
    destruct (registry_lookup target builtin_registry); reflexivity.
  - intros Hres. rewrite Hrun, Hres. unfold run_resolved.
    destruct (registry_lookup t0 builtin_registry); reflexivity.
Qed.

Lemma lsh_execute_alias_then_builtin_then_launch_witness :
  wf_shell (sh (machine_of_table shadowing_table EmptyString))
  /\ resolve "exit" (table (sh (machine_of_table shadowing_table EmptyString))) = Some "ls"
  /\ lsh_execute sample_os ["exit"; "-l"] (machine_of_table shadowing_table EmptyString)
     = lsh_launch sample_os ["ls"; "-l"] (machine_of_table shadowing_table EmptyString).
Proof.
  assert (Hwf : wf_shell (sh (machine_of_table shadowing_table EmptyString))).
  { split; simpl; unfold MAX_ALIASES; lia. }
  split; [exact Hwf|]. split; [reflexivity|].
  exact (proj1 (proj2 (lsh_execute_alias_then_builtin_then_launch sample_os "exit" ["-l"]
                         (machine_of_table shadowing_table EmptyString) Hwf))
           "ls" eq_refl).
Defined.

(** ** Defining and removing aliases *)

Lemma take_count_insert (arr : list Alias) (count : nat) (a : Alias) :
  (count < length arr)%nat ->
  take (S count) (<[count := a]> arr) = take count arr ++ [a].
Proof.
  intros Hc.
  rewrite (take_S_r _ _ a) by (apply list_lookup_insert_eq; lia).
  rewrite take_insert_ge by lia. reflexivity.
Qed.

(** The two-argument form below capacity appends one entry and touches
    nothing else. *)
Lemma newname_define (os : OS) (cmd n o : string) (extra : list string) (m : Machine) :
  wf_shell (sh m) ->
  (alias_count (sh m) < MAX_ALIASES)%nat ->
  exists m',
    newname os (cmd :: n :: o :: extra) m = Ret 1%Z m'
    /\ table (sh m') = table (sh m) ++ [mkAlias n o]
    /\ wf_shell (sh m')
    /\ shellname (sh m') = shellname (sh m)
    /\ terminator (sh m') = terminator (sh m)
    /\ stderr m' = stderr m.
Proof.
  intros [Hlen Hcnt] Hlt. unfold newname. simpl.
  apply Nat.ltb_lt in Hlt as Hltb. rewrite Hltb.
  eexists. split; [reflexivity|]. simpl. unfold table. simpl.
  unfold wf_shell. simpl_machine. repeat split.
  - apply take_count_insert. lia.
  - rewrite length_insert. exact Hlen.
  - lia.
Qed.


(** The one-argument form removes the first entry of that name. *)
Lemma newname_undefine (os : OS) (cmd n : string) (m : Machine)
    (l1 l2 : list Alias) (a : Alias) :
  wf_shell (sh m) ->
  table (sh m) = l1 ++ a :: l2 ->
  Forall (fun b => new_name b <> n) l1 ->
  new_name a = n ->
  exists m',
    newname os [cmd; n] m = Ret 1%Z m'
    /\ table (sh m') = l1 ++ l2
    /\ alias_count (sh m') = (alias_count (sh m) - 1)%nat
    /\ wf_shell (sh m')
    /\ shellname (sh m') = shellname (sh m)
    /\ terminator (sh m') = terminator (sh m)
    /\ stderr m' = stderr m.
Proof.
  intros Hwf Ht Hl1 Ha. pose proof Hwf as [Hlen Hcnt]. unfold newname. simpl.
  unfold table in Ht.
  rewrite (find_alias_first n (aliases (sh m)) l1 l2 a (alias_count (sh m)) 0);
    [ | simpl; lia | rewrite drop_0; exact Ht | exact Hl1 | exact Ha ].
  simpl. eexists. split; [reflexivity|]. unfold table, wf_shell. simpl_machine.
  repeat split.
  - apply (shift_down_table _ l1 l2 a); [lia | exact Ht].
  - rewrite length_shift_down. exact Hlen.
  - lia.
Qed.

(** C4.  Take any table in which [a] is the earliest entry named
    [new_name a].  Defining that name again (below capacity) appends a
    second entry and keeps the first; dispatching the name runs the
    target of [a], whatever later entries of the same name say; and the
    one-argument [newname] removes exactly [a], the entries before and
    after it keeping their order. *)
Theorem duplicate_aliases_first_defined_wins
    (os : OS) (m : Machine) (l1 l2 : list Alias) (a : Alias)
    (cmd target : string) (rest : list string) :
  wf_shell (sh m) ->
  table (sh m) = l1 ++ a :: l2 ->
  Forall (fun b => new_name b <> new_name a) l1 ->
  ((alias_count (sh m) < MAX_ALIASES)%nat ->
     exists m',
       newname os [cmd; new_name a; target] m = Ret 1%Z m'
       /\ table (sh m') = l1 ++ a :: l2 ++ [mkAlias (new_name a) target])
  /\ resolve (new_name a) (table (sh m)) = Some (old_name a)
  /\ lsh_execute os (new_name a :: rest) m = run_resolved os (old_name a) rest m
  /\ exists m',
       newname os [cmd; new_name a] m = Ret 1%Z m'
       /\ table (sh m') = l1 ++ l2
       /\ alias_count (sh m') = (alias_count (sh m) - 1)%nat.
Proof.
  intros Hwf Ht Hl1.
  assert (Hres : resolve (new_name a) (table (sh m)) = Some (old_name a)).
  { rewrite Ht. clear Ht. induction l1 as [|b l1 IH]; simpl.
    - rewrite String.eqb_refl. reflexivity.
    - inversion Hl1 as [|? ? Hb Hl1']; subst.
      destruct (String.eqb_spec (new_name a) (new_name b)) as [E|_];
        [symmetry in E; contradiction | auto]. }
  repeat split.
  - intros Hlt.
    destruct (newname_define os cmd (new_name a) target [] m Hwf Hlt)
      as (m' & Hrun & Htab & _).
    exists m'. split; [exact Hrun|]. rewrite Htab, Ht, <- app_assoc. reflexivity.
  - exact Hres.
  - rewrite lsh_execute_run_resolved by exact Hwf.
    rewrite Hres. reflexivity.
  - destruct (newname_undefine os cmd (new_name a) m l1 l2 a Hwf Ht Hl1 eq_refl)
      as (m' & Hrun & Htab & Hcount & _).
    exists m'. repeat split; assumption.
Qed.

Lemma duplicate_aliases_first_defined_wins_witness :
  wf_shell (sh duplicate_machine)
  /\ table (sh duplicate_machine)
     = [mkAlias "g" "grep"] ++ mkAlias "ll" "ls" :: [mkAlias "h" "help"; mkAlias "ll" "dir"]
  /\ (exists m',
        newname sample_os ["newname"; "ll"; "vdir"] duplicate_machine = Ret 1%Z m'
        /\ table (sh m')
           = [ mkAlias "g" "grep"; mkAlias "ll" "ls"; mkAlias "h" "help";
               mkAlias "ll" "dir"; mkAlias "ll" "vdir" ])
  /\ lsh_execute sample_os ["ll"; "-a"] duplicate_machine
     = run_resolved sample_os "ls" ["-a"] duplicate_machine
  /\ (exists m',
        newname sample_os ["newname"; "ll"] duplicate_machine = Ret 1%Z m'
        /\ table (sh m') = [ mkAlias "g" "grep"; mkAlias "h" "help"; mkAlias "ll" "dir" ]).
Proof.
  assert (Hwf : wf_shell (sh duplicate_machine)).
  { split; simpl; unfold MAX_ALIASES; lia. }
  assert (Ht : table (sh duplicate_machine)
               = [mkAlias "g" "grep"] ++ mkAlias "ll" "ls"
                   :: [mkAlias "h" "help"; mkAlias "ll" "dir"]) by reflexivity.
  assert (Hl1 : Forall (fun b => new_name b <> new_name (mkAlias "ll" "ls"))
                  [mkAlias "g" "grep"]).
  { repeat constructor. discriminate. }
  destruct (duplicate_aliases_first_defined_wins sample_os duplicate_machine
              [mkAlias "g" "grep"] [mkAlias "h" "help"; mkAlias "ll" "dir"]
              (mkAlias "ll" "ls") "newname" "vdir" ["-a"] Hwf Ht Hl1)
    as (Hdef & _ & Hexec & m2 & Hrun2 & Htab2 & _).
  split; [exact Hwf|]. split; [exact Ht|]. split; [|split].
  - destruct Hdef as (m1 & Hrun1 & Htab1); [simpl; unfold MAX_ALIASES; lia|].
    exists m1. split; [exact Hrun1 | exact Htab1].
  - exact Hexec.
  - exists m2. split; [exact Hrun2 | exact Htab2].
Defined.

(** C7.  The one-argument [newname] on a name that no entry has writes
    the "not found" diagnostic to the error stream, returns 1
    (continue), and leaves the shell state, hence the table and its
    length, as they were. *)
Theorem newname_not_found_reports_and_keeps_table
    (os : OS) (cmd name : string) (m : Machine) :
  wf_shell (sh m) ->
  Forall (fun a => new_name a <> name) (table (sh m)) ->
  exists m',
    newname os [cmd; name] m = Ret 1%Z m'
    /\ stderr m' = stderr m ++ [("Alias not found: " ++ name ++ nl)%string]
    /\ stdout m' = stdout m
    /\ sh m' = sh m
    /\ length (table (sh m')) = length (table (sh m)).
Proof.
  intros Hwf Hall. apply wf_count_le_length in Hwf.
  unfold newname. simpl.
  rewrite find_alias_none; [ | simpl; lia | rewrite drop_0; exact Hall ].
  eexists. split; [reflexivity|]. simpl_machine. repeat split.
Qed.

Lemma newname_not_found_reports_and_keeps_table_witness :
  wf_shell (sh duplicate_machine)
  /\ Forall (fun a => new_name a <> "la") (table (sh duplicate_machine))
  /\ exists m',
       newname sample_os ["newname"; "la"] duplicate_machine = Ret 1%Z m'
       /\ stderr m' = stderr duplicate_machine ++ [("Alias not found: " ++ "la" ++ nl)%string]
       /\ stdout m' = stdout duplicate_machine
       /\ sh m' = sh duplicate_machine
       /\ length (table (sh m')) = length (table (sh duplicate_machine)).
Proof.
  assert (Hwf : wf_shell (sh duplicate_machine)).
  { split; simpl; unfold MAX_ALIASES; lia. }
  assert (Hall : Forall (fun a => new_name a <> "la") (table (sh duplicate_machine))).
  { repeat constructor; discriminate. }
  split; [exact Hwf|]. split; [exact Hall|].
  exact (newname_not_found_reports_and_keeps_table sample_os "newname" "la"
           duplicate_machine Hwf Hall).
Defined.

(** ** Commands that only read the shell state *)

Lemma list_loop_frame (n i : nat) (arr : list Alias) (m : Machine) :
  sh (list_loop n i arr m) = sh m
  /\ cwd (list_loop n i arr m) = cwd m
  /\ files (list_loop n i arr m) = files m
  /\ stdin (list_loop n i arr m) = stdin m
  /\ stderr (list_loop n i arr m) = stderr m.
Proof.
  revert i m. induction n as [|n IH]; intros i m; simpl; [repeat split|].
  destruct (IH (S i) (print (new_name (arr !!! i) ++ " -> " ++ old_name (arr !!! i) ++ nl)%string m))
    as (H1 & H2 & H3 & H4 & H5).
  rewrite H1, H2, H3, H4, H5. repeat split.
Qed.

(** C10.  [listnewnames] and [savenewnames] return 1 (continue) and
    leave the shell state (prompt name, prompt terminator, alias array
    and alias count) exactly as it was, for every state and every
    argument list. *)
Theorem listnewnames_savenewnames_keep_shell_state
    (os : OS) (args : list string) (m : Machine) :
  (exists m', listnewnames os args m = Ret 1%Z m' /\ sh m' = sh m)
  /\ (exists m', savenewnames os args m = Ret 1%Z m' /\ sh m' = sh m).
Proof.
  split.
  - unfold listnewnames. eexists. split; [reflexivity|]. apply list_loop_frame.
  - unfold savenewnames.
    destruct (args !! 1%nat) as [path|]; [|eexists; split; reflexivity].
    destruct (os_writable os (os_resolve os (cwd m) path));
      eexists; split; reflexivity.
Qed.

(** ** Launching *)

(** Reports that the child was stopped are passed over. *)
Lemma wait_loop_through_stops (status s : wstatus) (sigs : list Z)
    (more : list wait_result) :
  WIFEXITED s = true \/ WIFSIGNALED s = true ->
  wait_loop status (map (fun g => Reported (WStopped g)) sigs ++ Reported s :: more)
  = true.
Proof.
  intros Hs. revert status. induction sigs as [|g sigs IH]; intros status.
  - simpl. destruct Hs as [-> | ->]; [reflexivity|].
    destruct (WIFEXITED s); reflexivity.
  - simpl. apply IH.
Qed.

(** In the interpreter the launcher returns 1 or does not return. *)
Lemma lsh_launch_parent (os : OS) (args : list string) (m : Machine) :
  os_fork os m args <> 0%Z ->
  exists m',
    (lsh_launch os args m = Ret 1%Z m' \/ lsh_launch os args m = Blocked m')
    /\ sh m' = sh m /\ cwd m' = cwd m.
Proof.
  intros Hpid. unfold lsh_launch.
  destruct (Z.eqb_spec (os_fork os m args) 0) as [E|_]; [contradiction|].
  destruct (os_fork os m args <? 0)%Z.
  - eexists. split; [left; reflexivity | split; reflexivity].
  - match goal with
    | |- context [if wait_loop ?st ?rs then _ else _] => destruct (wait_loop st rs)
    end; eexists; (split; [auto|]); destruct (os_execvp os m args); split; reflexivity.
Qed.



(** ** Scanning *)

Lemma skip_length (p : ascii -> bool) (s : string) :
  (String.length (skip p s) <= String.length s)%nat.
Proof.
  induction s as [|c s IH]; simpl; [lia|].
  destruct (p c); simpl; lia.
Qed.

Lemma skip_head (p : ascii -> bool) (s s1 : string) (c : ascii) :
  skip p s = String c s1 -> p c = false.
Proof.
  induction s as [|d s IH]; simpl; [discriminate|].
  destruct (p d) eqn:Hd; [exact IH|].
  intros H. injection H as -> _. exact Hd.
Qed.

Lemma span_length (p : ascii -> bool) (s tok rest : string) :
  span p s = (tok, rest) ->
  (String.length tok + String.length rest = String.length s)%nat.
Proof.
  revert tok rest. induction s as [|c s IH]; simpl; intros tok rest H.
  - injection H as <- <-. reflexivity.
  - destruct (p c).
    + injection H as <- <-. reflexivity.
    + destruct (span p s) as [t r]. injection H as <- <-.
      specialize (IH t r eq_refl). simpl. lia.
Qed.

Lemma words_skip (p : ascii -> bool) (s : string) :
  words p (skip p s) = words p s.
Proof.
  induction s as [|c s IH]; [reflexivity|].
  cbn [skip]. destruct (p c) eqn:Hc.
  - rewrite IH. cbn [words]. rewrite Hc. reflexivity.
  - reflexivity.
Qed.

Lemma span_delim (p : ascii -> bool) (s : string) (c : ascii) :
  p c = true -> span p (String c s) = (EmptyString, String c s).
Proof. intros Hc. simpl. rewrite Hc. reflexivity. Qed.

Lemma span_cons (p : ascii -> bool) (s : string) (c : ascii) :
  p c = false ->
  span p (String c s) = (String c (fst (span p s)), snd (span p s)).
Proof. intros Hc. simpl. rewrite Hc. destruct (span p s). reflexivity. Qed.

Lemma words_cons (p : ascii -> bool) (s : string) (c : ascii) :
  p c = false ->
  words p (String c s)
  = match s with
    | EmptyString => [String c EmptyString]
    | String c' _ =>
        if p c' then String c EmptyString :: words p s
        else match words p s with
             | w :: ws => String c w :: ws
             | [] => [String c EmptyString]
             end
    end.
Proof. intros Hc. destruct s; simpl; rewrite Hc; reflexivity. Qed.

Lemma words_span (p : ascii -> bool) (s : string) (c : ascii) :
  p c = false ->
  words p (String c s)
  = fst (span p (String c s)) :: words p (snd (span p (String c s))).
Proof.
  revert c. induction s as [|c' s IH]; intros c Hc.
  - simpl. rewrite Hc. simpl. reflexivity.
  - rewrite (words_cons p _ c Hc), (span_cons p _ c Hc).
    destruct (p c') eqn:Hc'.
    + rewrite (span_delim p s c' Hc'). reflexivity.
    + rewrite (IH c' Hc'). reflexivity.
Qed.

Lemma scan_s_None (s : string) :
  scan_s s = None ->
  words isspace s = [] /\ skip isspace s = EmptyString.
Proof.
  unfold scan_s. intros H. rewrite <- (words_skip isspace s).
  destruct (skip isspace s); [split; reflexivity | discriminate].
Qed.

Lemma scan_s_Some (s tok rest : string) :
  scan_s s = Some (tok, rest) ->
  words isspace s = tok :: words isspace rest
  /\ (String.length rest < String.length s)%nat.
Proof.
  unfold scan_s. intros H. rewrite <- (words_skip isspace s).
  pose proof (skip_length isspace s) as Hlen.
  destruct (skip isspace s) as [|c s1] eqn:Hskip; [discriminate|].
  pose proof (skip_head _ _ _ _ Hskip) as Hc.
  injection H as H.
  change (span isspace (String c s1) = (tok, rest)) in H.
  rewrite (words_span isspace s1 c Hc), H. simpl. split; [reflexivity|].
  pose proof (span_length _ _ _ _ H) as Hsp.
  assert (tok <> EmptyString).
  { intros ->. rewrite (span_cons isspace s1 c Hc) in H. discriminate. }
  destruct tok; [congruence|]. simpl in *. lia.
Qed.

(** ** Loading *)

Lemma set_sh_sh (m : Machine) : set_sh (sh m) m = m.
Proof. destruct m. reflexivity. Qed.

Lemma wf_add_alias (s : ShellState) (n o : string) :
  wf_shell s -> wf_shell (add_alias s n o).
Proof.
  intros [Hlen Hcnt]. unfold add_alias.
  destruct (Nat.ltb_spec (alias_count s) MAX_ALIASES) as [Hlt|Hge].
  - split; simpl; [rewrite length_insert; exact Hlen | lia].
  - split; assumption.
Qed.

Lemma wf_load_pairs (ps : list (string * string)) (s : ShellState) :
  wf_shell s -> wf_shell (load_pairs s ps).
Proof.
  revert s. induction ps as [|p ps IH]; intros s Hwf; simpl; [exact Hwf|].
  apply IH, wf_add_alias, Hwf.
Qed.



(** One pass of the loop of [readnewnames] treats the pair it parsed as
    the capacity rule says. *)
Lemma read_loop_step (fuel : nat) (stream a b rest : string) (m : Machine) :
  fscanf_s_s stream = ScanTwo a b rest ->
  read_loop (S fuel) stream m
  = read_loop fuel rest (set_sh (add_alias (sh m) (cstr a) (cstr b)) m).
Proof.
  intros H. cbn [read_loop]. rewrite H. unfold add_alias.
  destruct (alias_count (sh m) <? MAX_ALIASES)%nat; [reflexivity|].
  rewrite set_sh_sh. reflexivity.
Qed.

(** The two-argument [newname] changes the shell state as the capacity
    rule says. *)
Lemma newname_add_alias (os : OS) (cmd n o : string) (extra : list string) (m : Machine) :
  exists m',
    newname os (cmd :: n :: o :: extra) m = Ret 1%Z m'
    /\ sh m' = add_alias (sh m) n o
    /\ files m' = files m.
Proof.
  unfold newname, add_alias. simpl.
  destruct (alias_count (sh m) <? MAX_ALIASES)%nat;
    eexists; split; try reflexivity; split; reflexivity.
Qed.

(** What one [fscanf] tells about the tokens of the text. *)
Lemma fscanf_s_s_words (stream : string) :
  match fscanf_s_s stream with
  | ScanEOF rest => rest = EmptyString /\ words isspace stream = []
  | ScanOne rest =>
      rest = EmptyString
      /\ exists t1, words isspace stream = [t1] /\ fits t1 = true
  | ScanTwo a b rest =>
      words isspace stream = a :: b :: words isspace rest
      /\ fits a = true /\ fits b = true
      /\ (String.length rest < String.length stream)%nat
  | ScanOverrun => forallb fits (words isspace stream) = false
  end.
Proof.
  unfold fscanf_s_s.
  destruct (scan_s stream) as [[t1 r1]|] eqn:H1.
  - destruct (scan_s_Some _ _ _ H1) as [Hw1 Hl1].
    destruct (fits t1) eqn:Hf1; [|rewrite Hw1; simpl; rewrite Hf1; reflexivity].
    destruct (scan_s (skip isspace r1)) as [[t2 r2]|] eqn:H2.
    + destruct (scan_s_Some _ _ _ H2) as [Hw2 Hl2].
      rewrite words_skip in Hw2.
      pose proof (skip_length isspace r1) as Hsk.
      destruct (fits t2) eqn:Hf2.
      * rewrite Hw1, Hw2. repeat split; try assumption. lia.
      * rewrite Hw1, Hw2. simpl. rewrite Hf1, Hf2. reflexivity.
    + destruct (scan_s_None _ H2) as [Hw2 Hs2]. rewrite words_skip in Hw2.
      split; [exact Hs2|]. exists t1. rewrite Hw1, Hw2. split; [reflexivity | exact Hf1].
  - destruct (scan_s_None _ H1) as [Hw1 Hs1]. split; assumption.
Qed.

(** The whole loop: with enough fuel it either overruns a buffer, which
    happens exactly when some token of the text does not fit, or leaves
    the file at its end after treating every pair of tokens. *)
Lemma read_loop_spec (fuel : nat) (stream : string) (m : Machine) :
  (String.length stream < fuel)%nat ->
  (forallb fits (words isspace stream) = true
   /\ read_loop fuel stream m
      = Ret EmptyString (set_sh (load_pairs (sh m) (pairs (words isspace stream))) m))
  \/ (forallb fits (words isspace stream) = false
      /\ read_loop fuel stream m = Undefined).
Proof.
  revert stream m. induction fuel as [|fuel IH]; intros stream m Hfuel; [lia|].
  pose proof (fscanf_s_s_words stream) as Hscan.
  destruct (fscanf_s_s stream) as [rest|rest|a b rest|] eqn:Hs.
  - destruct Hscan as [-> Hw]. left. rewrite Hw. split; [reflexivity|].
    cbn [read_loop]. rewrite Hs. simpl. rewrite set_sh_sh. reflexivity.
  - destruct Hscan as [-> (t1 & Hw & Hf)]. left. rewrite Hw. split.
    + simpl. rewrite Hf. reflexivity.
    + cbn [read_loop]. rewrite Hs. simpl. rewrite set_sh_sh. reflexivity.
  - destruct Hscan as (Hw & Hfa & Hfb & Hlen).
    rewrite (read_loop_step fuel stream a b rest m Hs), Hw.
    cbn [forallb pairs]. rewrite Hfa, Hfb. cbn [andb].
    destruct (IH rest (set_sh (add_alias (sh m) (cstr a) (cstr b)) m))
      as [[Hfit Hrun]|[Hfit Hrun]]; [lia | left | right].
    + split; [exact Hfit|]. rewrite Hrun. reflexivity.
    + split; [exact Hfit | exact Hrun].
  - right. split; [exact Hscan|]. cbn [read_loop]. rewrite Hs. reflexivity.
Qed.

Lemma readnewnames_spec (os : OS) (cmd path : string) (extra : list string)
    (m : Machine) (content : string) :
  files m !! os_resolve os (cwd m) path = Some content ->
  (forallb fits (words isspace content) = true
   /\ readnewnames os (cmd :: path :: extra) m
      = Ret 1%Z (set_sh (load_pairs (sh m) (pairs (words isspace content))) m))
  \/ (forallb fits (words isspace content) = false
      /\ readnewnames os (cmd :: path :: extra) m = Undefined).
Proof.
  intros Hfile. unfold readnewnames.
  change ((cmd :: path :: extra) !! 1%nat) with (Some path).
  cbv beta iota. rewrite Hfile. unfold bind, ret.
  destruct (read_loop_spec (S (String.length content)) content m)
    as [[Hfit Hrun]|[Hfit Hrun]]; [lia | left | right];
    (split; [exact Hfit | rewrite Hrun; reflexivity]).
Qed.

(** [readnewnames] on any arguments: the call returns 1 with a table
    within capacity, unless a token of the file overruns a buffer. *)
Lemma readnewnames_outcome (os : OS) (args : list string) (m : Machine) :
  wf_shell (sh m) ->
  (readnewnames os args m = Undefined /\ ~ files_fit m)
  \/ exists m',
       readnewnames os args m = Ret 1%Z m'
       /\ wf_shell (sh m') /\ files m' = files m.
Proof.
  intros Hwf.
  destruct args as [|cmd [|path extra]];
    [right; eexists; split; [reflexivity | split; [exact Hwf | reflexivity]] .. |].
  destruct (files m !! os_resolve os (cwd m) path) as [content|] eqn:Hfile.
  - destruct (readnewnames_spec os cmd path extra m content Hfile)
      as [[Hfit Hrun]|[Hfit Hrun]].
    + right. eexists. split; [exact Hrun|]. simpl_machine.
      split; [apply wf_load_pairs, Hwf | reflexivity].
    + left. split; [exact Hrun|]. intros Hff.
      specialize (Hff _ _ Hfile). simpl in Hff. congruence.
  - right. unfold readnewnames. simpl. rewrite Hfile.
    eexists. split; [reflexivity | split; [exact Hwf | reflexivity]].
Qed.

Lemma newname_outcome (os : OS) (args : list string) (m : Machine) :
  wf_shell (sh m) ->
  exists m',
    newname os args m = Ret 1%Z m' /\ wf_shell (sh m') /\ files m' = files m.
Proof.
  intros Hwf. pose proof Hwf as [Hlen Hcnt]. unfold newname.
  destruct (args !! 1%nat) as [a1|];
    [|eexists; split; [reflexivity | split; [exact Hwf | reflexivity]]].
  destruct (args !! 2%nat) as [a2|].
  - destruct (Nat.ltb_spec (alias_count (sh m)) MAX_ALIASES) as [Hlt|Hge].
    + eexists. split; [reflexivity|]. unfold wf_shell. simpl_machine.
      rewrite length_insert. repeat split; [exact Hlen | lia].
    + eexists. split; [reflexivity | split; [exact Hwf | reflexivity]].
  - destruct (find_alias (alias_count (sh m)) 0 a1 (aliases (sh m))).
    + eexists. split; [reflexivity|]. unfold wf_shell. simpl_machine.
      rewrite length_shift_down. repeat split; [exact Hlen | lia].
    + eexists. split; [reflexivity | split; [exact Hwf | reflexivity]].
Qed.

Lemma run_cmds_outcome (os : OS) (cmds : list alias_cmd) (m : Machine) :
  wf_shell (sh m) ->
  (run_cmds os cmds m = Undefined /\ ~ files_fit m)
  \/ exists m',
       run_cmds os cmds m = Ret tt m'
       /\ wf_shell (sh m') /\ files m' = files m.
Proof.
  revert m. induction cmds as [|c cmds IH]; intros m Hwf.
  - right. exists m. split; [reflexivity | split; [exact Hwf | reflexivity]].
  - cbn [run_cmds]. unfold bind.
    assert (Hc : (run_cmd os c m = Undefined /\ ~ files_fit m)
                 \/ exists m', run_cmd os c m = Ret 1%Z m'
                               /\ wf_shell (sh m') /\ files m' = files m).
    { destruct c as [n o|path]; simpl.
      - right. apply newname_outcome, Hwf.
      - apply readnewnames_outcome, Hwf. }
    destruct Hc as [[Hrun Hnf]|(m1 & Hrun & Hwf1 & Hfiles1)].
    + left. rewrite Hrun. split; [reflexivity | exact Hnf].
    + rewrite Hrun.
      destruct (IH m1 Hwf1) as [[Hrun' Hnf]|(m2 & Hrun' & Hwf2 & Hfiles2)].
      * left. split; [exact Hrun'|]. unfold files_fit in *. rewrite <- Hfiles1. exact Hnf.
      * right. exists m2. repeat split; [exact Hrun' | apply Hwf2 | apply Hwf2 | congruence].
Qed.

Lemma table_within_capacity (s : ShellState) :
  wf_shell s -> (length (table s) <= MAX_ALIASES)%nat.
Proof. intros [Hlen Hcnt]. unfold table. rewrite length_take. lia. Qed.

(** Where every token of every file fits the buffers, any sequence of
    definitions and loads returns with the table within capacity. *)
Lemma define_and_load_within_capacity (os : OS) (cmds : list alias_cmd) (m : Machine) :
  wf_shell (sh m) ->
  files_fit m ->
  exists m',
    run_cmds os cmds m = Ret tt m'
    /\ (length (table (sh m')) <= MAX_ALIASES)%nat
    /\ (alias_count (sh m') <= MAX_ALIASES)%nat.
Proof.
  intros Hwf Hfit.
  destruct (run_cmds_outcome os cmds m Hwf) as [[_ Hnf]|(m' & Hrun & Hwf' & _)];
    [contradiction|].
  exists m'. split; [exact Hrun|].
  split; [apply table_within_capacity, Hwf' | apply Hwf'].
Qed.

(** C2 (the code overruns a buffer).  The bound on the table is asked
    for after any sequence of definitions and loads.  From a state with
    the array at its declared size and one entry in use, the load of a
    file whose first token has 256 characters (the file that
    [savenewnames] writes for an alias of that length) stores 257 bytes
    in the 256-byte array [new_name]: the behaviour of the sequence is
    undefined, and nothing is left to say about the table. *)
Theorem define_and_load_overrun_on_long_token :
  wf_shell (sh long_file_machine)
  /\ alias_count (sh long_file_machine) = 1%nat
  /\ files long_file_machine !! os_resolve sample_os (cwd long_file_machine) "names"
     = Some (long_name ++ " ls" ++ nl)%string
  /\ String.length long_name = NAME_BUFSIZE
  /\ run_cmds sample_os [Define "ll" "ls"; Load "names"] long_file_machine = Undefined.
Proof.
  split; [split; simpl; unfold MAX_ALIASES; lia|].
  split; [reflexivity|]. split; [reflexivity|].
  split; vm_compute; reflexivity.
Qed.

Lemma load_pairs_take (ps : list (string * string)) (s : ShellState) :
  wf_shell s ->
  table (load_pairs s ps)
  = table s ++ take (MAX_ALIASES - alias_count s) (map alias_of_pair ps).
Proof.
  revert s. induction ps as [|p ps IH]; intros s Hwf.
  - simpl. rewrite take_nil, app_nil_r. reflexivity.
  - pose proof Hwf as [Hlen Hcnt]. cbn [load_pairs fold_left].
    change (fold_left _ ps ?s0) with (load_pairs s0 ps).
    rewrite IH by apply wf_add_alias, Hwf.
    unfold add_alias.
    destruct (Nat.ltb_spec (alias_count s) MAX_ALIASES) as [Hlt|Hge].
    + unfold table at 1. simpl_machine.
      rewrite take_count_insert by lia.
      replace (MAX_ALIASES - alias_count s)%nat
        with (S (MAX_ALIASES - S (alias_count s))) by lia.
      cbn [map take]. rewrite <- app_assoc. reflexivity.
    + replace (MAX_ALIASES - alias_count s)%nat with 0%nat by lia.
      rewrite !take_0. reflexivity.
Qed.




(** ** Saving and loading *)

Lemma append_assoc (a b c : string) : ((a ++ b) ++ c = a ++ (b ++ c))%string.
Proof.
  induction a as [|x a IH]; [reflexivity | exact (f_equal (String x) IH)].
Qed.

Lemma span_token (p : ascii -> bool) (w rest : string) (c : ascii) :
  all_chars (fun x => negb (p x)) w = true ->
  p c = true ->
  span p (w ++ String c rest)%string = (w, String c rest).
Proof.
  intros Hw Hc. induction w as [|x w IH]; simpl.
  - rewrite Hc. reflexivity.
  - simpl in Hw. apply andb_true_iff in Hw as [Hx Hw].
    apply negb_true_iff in Hx. rewrite Hx, (IH Hw). reflexivity.
Qed.

Lemma words_token (p : ascii -> bool) (w rest : string) (c : ascii) :
  w <> EmptyString ->
  all_chars (fun x => negb (p x)) w = true ->
  p c = true ->
  words p (w ++ String c rest)%string = w :: words p rest.
Proof.
  intros Hne Hw Hc. destruct w as [|x w]; [congruence|].
  pose proof (span_token p (String x w) rest c Hw Hc) as Hsp.
  simpl in Hw. apply andb_true_iff in Hw as [Hx _]. apply negb_true_iff in Hx.
  change (String x w ++ String c rest)%string with (String x (w ++ String c rest)) in *.
  rewrite (words_span p _ x Hx), Hsp. cbn [fst snd].
  f_equal. cbn [words]. rewrite Hc. reflexivity.
Qed.

Lemma all_chars_weaken (p q : ascii -> bool) (s : string) :
  (forall c, p c = true -> q c = true) ->
  all_chars p s = true -> all_chars q s = true.
Proof.
  intros Hpq. induction s as [|c s IH]; simpl; [reflexivity|].
  intros H. apply andb_true_iff in H as [Hc Hs].
  rewrite (Hpq c Hc), (IH Hs). reflexivity.
Qed.

Lemma plain_name_inv (n : string) :
  plain_name n = true ->
  n <> EmptyString
  /\ all_chars (fun x => negb (isspace x)) n = true
  /\ cstr n = n.
Proof.
  unfold plain_name. intros H. apply andb_true_iff in H as [Hne Hall].
  split; [destruct n; [discriminate | congruence]|].
  split.
  - revert Hall. apply all_chars_weaken. intros c Hc.
    apply andb_true_iff in Hc as [Hc _]. exact Hc.
  - clear Hne. induction n as [|c n IH]; simpl in *; [reflexivity|].
    apply andb_true_iff in Hall as [Hc Hall].
    apply andb_true_iff in Hc as [_ Hc]. apply negb_true_iff in Hc.
    rewrite Hc, (IH Hall). reflexivity.
Qed.

Lemma words_save_text (tbl : list Alias) :
  Forall entry_ok tbl ->
  words isspace (save_text tbl)
  = flat_map (fun a => [new_name a; old_name a]) tbl.
Proof.
  induction 1 as [|a tbl [Hn Ho] _ IH]; [reflexivity|].
  unfold name_ok in Hn, Ho.
  apply andb_true_iff in Hn as [Hn _]. apply andb_true_iff in Ho as [Ho _].
  destruct (plain_name_inv _ Hn) as (Hn1 & Hn2 & _).
  destruct (plain_name_inv _ Ho) as (Ho1 & Ho2 & _).
  cbn [save_text flat_map]. unfold nl.
  rewrite append_assoc.
  change (" " ++ old_name a ++ String LF EmptyString)%string
    with (String SP (old_name a ++ String LF EmptyString)).
  change (String SP (old_name a ++ String LF EmptyString) ++ save_text tbl)%string
    with (String SP ((old_name a ++ String LF EmptyString) ++ save_text tbl)).
  rewrite (words_token isspace (new_name a) _ SP Hn1 Hn2 eq_refl).
  rewrite append_assoc.
  change (String LF EmptyString ++ save_text tbl)%string
    with (String LF (save_text tbl)).
  rewrite (words_token isspace (old_name a) _ LF Ho1 Ho2 eq_refl).
  rewrite IH. reflexivity.
Qed.

Lemma pairs_flat_map (tbl : list Alias) :
  pairs (flat_map (fun a => [new_name a; old_name a]) tbl)
  = map (fun a => (new_name a, old_name a)) tbl.
Proof. induction tbl as [|a tbl IH]; simpl; [reflexivity | rewrite IH; reflexivity]. Qed.

Lemma fits_flat_map (tbl : list Alias) :
  Forall entry_ok tbl ->
  forallb fits (flat_map (fun a => [new_name a; old_name a]) tbl) = true.
Proof.
  induction 1 as [|a tbl [Hn Ho] _ IH]; [reflexivity|].
  unfold name_ok in Hn, Ho.
  apply andb_true_iff in Hn as [_ Hn]. apply andb_true_iff in Ho as [_ Ho].
  simpl. rewrite Hn, Ho, IH. reflexivity.
Qed.

Lemma save_loop_table (arr : list Alias) (n i : nat) :
  (i + n <= length arr)%nat ->
  save_loop n i arr = save_text (take n (drop i arr)).
Proof.
  revert i. induction n as [|n IH]; intros i Hi; [reflexivity|].
  rewrite take_drop_cons by lia. cbn [save_loop save_text].
  rewrite IH by lia. reflexivity.
Qed.

Lemma load_pairs_table (ps : list (string * string)) (s : ShellState) :
  wf_shell s ->
  (alias_count s + length ps <= MAX_ALIASES)%nat ->
  table (load_pairs s ps)
  = table s ++ map (fun p => mkAlias (cstr (fst p)) (cstr (snd p))) ps.
Proof.
  revert s. induction ps as [|p ps IH]; intros s Hwf Hroom; simpl.
  - rewrite app_nil_r. reflexivity.
  - simpl in Hroom. pose proof Hwf as [Hlen Hcnt].
    rewrite IH; [ | apply wf_add_alias, Hwf | ].
    + unfold add_alias.
      destruct (Nat.ltb_spec (alias_count s) MAX_ALIASES) as [Hlt|Hge]; [|lia].
      unfold table. simpl_machine.
      rewrite take_count_insert by lia. rewrite <- app_assoc. reflexivity.
    + unfold add_alias.
      destruct (Nat.ltb_spec (alias_count s) MAX_ALIASES) as [Hlt|Hge]; [|lia].
      simpl. lia.
Qed.

(** Saving writes one line per entry of the table, in order. *)
Lemma savenewnames_writes_table (os : OS) (cmd path : string) (extra : list string)
    (m : Machine) :
  wf_shell (sh m) ->
  os_writable os (os_resolve os (cwd m) path) = true ->
  savenewnames os (cmd :: path :: extra) m
  = Ret 1%Z (set_files (<[os_resolve os (cwd m) path := save_text (table (sh m))]> (files m)) m).
Proof.
  intros Hwf Hw. apply wf_count_le_length in Hwf.
  unfold savenewnames.
  change ((cmd :: path :: extra) !! 1%nat) with (Some path). cbv beta iota zeta.
  rewrite Hw, save_loop_table by (simpl; lia). rewrite drop_0. reflexivity.
Qed.

(** The round trip, for tables whose names the format can carry and the
    buffers of [readnewnames] can hold. *)
Lemma save_then_load_round_trip (os : OS) (path : string) (m : Machine) :
  wf_shell (sh m) ->
  os_writable os (os_resolve os (cwd m) path) = true ->
  Forall entry_ok (table (sh m)) ->
  exists m',
    save_then_load os path m = Ret 1%Z m'
    /\ table (sh m') = table (sh m)
    /\ files m' !! os_resolve os (cwd m) path = Some (save_text (table (sh m))).
Proof.
  intros Hwf Hw Hok. unfold save_then_load, bind, effect.
  rewrite (savenewnames_writes_table os _ path [] m Hwf Hw).
  set (m1 := set_sh initial_shell
               (set_files (<[os_resolve os (cwd m) path := save_text (table (sh m))]>
                             (files m)) m)).
  assert (Hfile : files m1 !! os_resolve os (cwd m1) path
                  = Some (save_text (table (sh m)))).
  { unfold m1. simpl_machine. apply lookup_insert_eq. }
  destruct (readnewnames_spec os "readnewnames" path [] m1 _ Hfile)
    as [[_ Hrun]|[Hno _]].
  - eexists. split; [exact Hrun|]. simpl_machine. split.
    + rewrite words_save_text, pairs_flat_map by exact Hok.
      rewrite load_pairs_table.
      * unfold m1. simpl_machine. rewrite map_map. simpl.
        change (table initial_shell) with (@nil Alias). simpl.
        clear -Hok. induction Hok as [|a tbl [Hn Ho] _ IH]; [reflexivity|].
        simpl. rewrite IH. f_equal.
        unfold name_ok in Hn, Ho.
        apply andb_true_iff in Hn as [Hn _]. apply andb_true_iff in Ho as [Ho _].
        destruct (plain_name_inv _ Hn) as (_ & _ & ->).
        destruct (plain_name_inv _ Ho) as (_ & _ & ->).
        destruct a; reflexivity.
      * apply wf_initial_shell.
      * unfold m1. simpl_machine. rewrite length_map.
        pose proof (table_within_capacity _ Hwf). simpl. lia.
    + exact Hfile.
  - rewrite words_save_text, fits_flat_map in Hno by exact Hok. discriminate.
Qed.

(** C3 (the code overruns a buffer).  An alias whose name has 256
    characters is saved as one line, and reading that line back writes
    257 bytes into the 256-byte array [new_name]: the behaviour of
    [readnewnames] is undefined, where the round trip asks for the
    table to come back.  The name contains no white space. *)
Theorem save_then_load_overruns_on_long_name :
  all_chars (fun c => negb (isspace c)) long_name = true
  /\ wf_shell (sh long_name_machine)
  /\ table (sh long_name_machine) = [mkAlias long_name "ls"]
  /\ savenewnames sample_os ["savenewnames"; "names"] long_name_machine
     = Ret 1%Z (set_files {[ "/home/names" := (long_name ++ " ls" ++ nl)%string ]}
                          long_name_machine)
  /\ save_then_load sample_os "names" long_name_machine = Undefined.
Proof.
  split; [vm_compute; reflexivity|].
  split; [split; simpl; unfold MAX_ALIASES; lia|].
  split; [reflexivity|].
  split; vm_compute; reflexivity.
Qed.

(** ** Reading and splitting a line *)

Lemma span_rest_head (p : ascii -> bool) (s tok r : string) (d : ascii) :
  span p s = (tok, String d r) -> p d = true.
Proof.
  revert tok. induction s as [|c s IH]; intros tok H; simpl in H; [discriminate|].
  destruct (p c) eqn:Hc.
  - injection H as _ -> _. exact Hc.
  - destruct (span p s) as [t r'] eqn:Hs. injection H as _ ->. apply (IH t). reflexivity.
Qed.

Lemma strtok_None (s : string) :
  strtok s = None -> words is_tok_delim s = [].
Proof.
  unfold strtok. intros H. rewrite <- (words_skip is_tok_delim s).
  destruct (skip is_tok_delim s) as [|c s1]; [reflexivity|].
  destruct (span is_tok_delim (String c s1)); discriminate.
Qed.

Lemma strtok_Some (s tok rest : string) :
  strtok s = Some (tok, rest) ->
  words is_tok_delim s = tok :: words is_tok_delim rest
  /\ (String.length rest < String.length s)%nat.
Proof.
  unfold strtok. intros H. rewrite <- (words_skip is_tok_delim s).
  pose proof (skip_length is_tok_delim s) as Hlen.
  destruct (skip is_tok_delim s) as [|c s1] eqn:Hskip; [discriminate|].
  pose proof (skip_head _ _ _ _ Hskip) as Hc.
  rewrite (words_span is_tok_delim s1 c Hc).
  destruct (span is_tok_delim (String c s1)) as [t r] eqn:Hsp.
  injection H as <- <-. cbn [fst snd].
  pose proof (span_length _ _ _ _ Hsp) as Hl.
  assert (Ht : t <> EmptyString).
  { intros ->. rewrite (span_cons is_tok_delim s1 c Hc) in Hsp. discriminate. }
  destruct r as [|d r].
  - split; [reflexivity|]. destruct t; [congruence|]. simpl in *. lia.
  - pose proof (span_rest_head _ _ _ _ _ Hsp) as Hd.
    split; [cbn [words]; rewrite Hd; reflexivity|]. simpl in *. lia.
Qed.

Section GrantingHeap.

Variable os : OS.
Hypothesis heap_ok : forall n, heap_grants os n = true.

(** The tokenizer returns the words of the line. *)
Lemma split_loop_words (fuel : nat) (text : string) (tokens : list string)
    (bufsize : nat) (m : Machine) :
  (String.length text < fuel)%nat ->
  split_loop os fuel text tokens bufsize m
  = Ret (tokens ++ words is_tok_delim text) m.
Proof.
  revert text tokens bufsize. induction fuel as [|fuel IH];
    intros text tokens bufsize Hfuel; [lia|].
  cbn [split_loop].
  destruct (strtok text) as [[tok rest]|] eqn:Htok.
  - destruct (strtok_Some _ _ _ Htok) as [Hw Hl].
    rewrite heap_ok, Hw.
    replace (tokens ++ tok :: words is_tok_delim rest)
      with ((tokens ++ [tok]) ++ words is_tok_delim rest)
      by (rewrite <- app_assoc; reflexivity).
    destruct (bufsize <=? length (tokens ++ [tok]))%nat; apply IH; lia.
  - rewrite (strtok_None _ Htok), app_nil_r. reflexivity.
Qed.

Lemma lsh_split_line_words (line : string) (m : Machine) :
  lsh_split_line os line m = Ret (words is_tok_delim line) m.
Proof.
  unfold lsh_split_line. rewrite heap_ok.
  rewrite split_loop_words by lia. reflexivity.
Qed.

(** End of input before any newline: the process ends with success. *)
Lemma read_chars_eof (input buffer : string) (bufsize : nat) (m : Machine) :
  all_chars (fun c => negb (Ascii.eqb c LF)) input = true ->
  read_chars os input buffer bufsize m
  = Exit EXIT_SUCCESS (set_stdin EmptyString m).
Proof.
  revert buffer bufsize. induction input as [|c input IH];
    intros buffer bufsize Hall; [reflexivity|].
  simpl in Hall. apply andb_true_iff in Hall as [Hc Hall].
  apply negb_true_iff in Hc. cbn [read_chars]. rewrite Hc, heap_ok.
  destruct (bufsize <=? String.length (buffer ++ String c EmptyString))%nat;
    apply IH, Hall.
Qed.

(** A full line: the characters before the newline are returned, as a
    C string, and the input is left just after the newline. *)
Lemma read_chars_line (line rest buffer : string) (bufsize : nat) (m : Machine) :
  all_chars (fun c => negb (Ascii.eqb c LF)) line = true ->
  read_chars os (line ++ String LF rest)%string buffer bufsize m
  = Ret (cstr (buffer ++ line)%string) (set_stdin rest m).
Proof.
  revert buffer bufsize. induction line as [|c line IH];
    intros buffer bufsize Hall.
  - change (EmptyString ++ String LF rest)%string with (String LF rest).
    cbn [read_chars]. rewrite Ascii.eqb_refl.
    replace (buffer ++ EmptyString)%string with buffer; [reflexivity|].
    clear. induction buffer as [|x b IHb]; [reflexivity|].
    exact (f_equal (String x) IHb).
  - simpl in Hall. apply andb_true_iff in Hall as [Hc Hall].
    apply negb_true_iff in Hc.
    change (String c line ++ String LF rest)%string
      with (String c (line ++ String LF rest)).
    cbn [read_chars]. rewrite Hc, heap_ok.
    replace (buffer ++ String c line)%string
      with ((buffer ++ String c EmptyString) ++ line)%string
      by (rewrite append_assoc; reflexivity).
    destruct (bufsize <=? String.length (buffer ++ String c EmptyString))%nat;
      apply IH, Hall.
Qed.

(** Every input is a line followed by the rest, or has no newline. *)
Lemma input_line_or_eof (input : string) :
  all_chars (fun c => negb (Ascii.eqb c LF)) input = true
  \/ exists line rest,
       input = (line ++ String LF rest)%string
       /\ all_chars (fun c => negb (Ascii.eqb c LF)) line = true
       /\ (String.length rest < String.length input)%nat.
Proof.
  induction input as [|c input IH]; [left; reflexivity|].
  destruct (Ascii.eqb c LF) eqn:Hc.
  - right. exists EmptyString, input. apply Ascii.eqb_eq in Hc. subst c.
    repeat split. simpl. lia.
  - destruct IH as [Hall|(line & rest & -> & Hall & Hlen)].
    + left. simpl. rewrite Hc, Hall. reflexivity.
    + right. exists (String c line), rest. repeat split.
      * simpl. rewrite Hc, Hall. reflexivity.
      * simpl. lia.
Qed.

Lemma lsh_read_line_eof (m : Machine) :
  all_chars (fun c => negb (Ascii.eqb c LF)) (stdin m) = true ->
  lsh_read_line os m = Exit EXIT_SUCCESS (set_stdin EmptyString m).
Proof.
  intros Hall. unfold lsh_read_line. rewrite heap_ok. apply read_chars_eof, Hall.
Qed.

Lemma lsh_read_line_line (line rest : string) (m : Machine) :
  stdin m = (line ++ String LF rest)%string ->
  all_chars (fun c => negb (Ascii.eqb c LF)) line = true ->
  lsh_read_line os m = Ret (cstr line) (set_stdin rest m).
Proof.
  intros Hin Hall. unfold lsh_read_line. rewrite heap_ok, Hin.
  apply (read_chars_line line rest EmptyString), Hall.
Qed.

(** One pass of the loop on a full line of input. *)
Lemma lsh_loop_line (fuel : nat) (line rest : string) (m : Machine) :
  stdin m = (line ++ String LF rest)%string ->
  all_chars (fun c => negb (Ascii.eqb c LF)) line = true ->
  lsh_loop os (S fuel) m
  = (do status <- lsh_execute os (words is_tok_delim (cstr line));
     if (status =? 0)%Z then ret tt else lsh_loop os fuel)
      (set_stdin rest (print (prompt (sh m)) m)).
Proof.
  intros Hin Hall. cbn [lsh_loop]. unfold bind at 1. unfold effect.
  unfold bind at 1.
  rewrite (lsh_read_line_line line rest (print (prompt (sh m)) m) Hin Hall).
  unfold bind at 1. rewrite lsh_split_line_words. reflexivity.
Qed.

(** One pass of the loop at the end of the input. *)
Lemma lsh_loop_eof (fuel : nat) (m : Machine) :
  all_chars (fun c => negb (Ascii.eqb c LF)) (stdin m) = true ->
  lsh_loop os (S fuel) m
  = Exit EXIT_SUCCESS (set_stdin EmptyString (print (prompt (sh m)) m)).
Proof.
  intros Hall. cbn [lsh_loop]. unfold bind at 1. unfold effect.
  unfold bind at 1.
  rewrite (lsh_read_line_eof (print (prompt (sh m)) m) Hall). reflexivity.
Qed.

End GrantingHeap.

(** ** What a command can do to the process *)

Lemma length_string_of_list_ascii (l : list ascii) :
  String.length (string_of_list_ascii l) = length l.
Proof. induction l as [|c l IH]; simpl; [reflexivity | rewrite IH; reflexivity]. Qed.

Lemma length_list_ascii_of_string (s : string) :
  length (list_ascii_of_string s) = String.length s.
Proof. induction s as [|c s IH]; simpl; [reflexivity | rewrite IH; reflexivity]. Qed.

Lemma after_child_stdin (r : ChildRun) (m : Machine) :
  (String.length (stdin (after_child r m)) <= String.length (stdin m))%nat.
Proof.
  unfold after_child. simpl_machine.
  rewrite length_string_of_list_ascii, length_drop, length_list_ascii_of_string. lia.
Qed.

Lemma fold_print_stdin (lines : list string) (m : Machine) :
  stdin (fold_left (fun m' line => print line m') lines m) = stdin m.
Proof.
  revert m. induction lines as [|l lines IH]; intros m; simpl; [reflexivity|].
  rewrite IH. reflexivity.
Qed.

Lemma keeps_running_same_stdin (m m' : Machine) (v : Z) :
  stdin m' = stdin m -> keeps_running m (Ret v m').
Proof. intros H. simpl. rewrite H. lia. Qed.

Lemma lsh_cd_keeps_running (os : OS) (args : list string) (m : Machine) :
  keeps_running m (lsh_cd os args m).
Proof.
  unfold lsh_cd. destruct (args !! 1%nat) as [dir|];
    [destruct (os_chdir os (cwd m) dir)|]; apply keeps_running_same_stdin; reflexivity.
Qed.

Lemma lsh_help_keeps_running (os : OS) (args : list string) (m : Machine) :
  keeps_running m (lsh_help os args m).
Proof. apply keeps_running_same_stdin, fold_print_stdin. Qed.

Lemma setshellname_keeps_running (os : OS) (args : list string) (m : Machine) :
  keeps_running m (setshellname os args m).
Proof.
  unfold setshellname. destruct (args !! 1%nat);
    apply keeps_running_same_stdin; reflexivity.
Qed.

Lemma setterminator_keeps_running (os : OS) (args : list string) (m : Machine) :
  keeps_running m (setterminator os args m).
Proof.
  unfold setterminator. destruct (args !! 1%nat);
    apply keeps_running_same_stdin; reflexivity.
Qed.

Lemma newname_keeps_running (os : OS) (args : list string) (m : Machine) :
  keeps_running m (newname os args m).
Proof.
  unfold newname. destruct (args !! 1%nat); [|apply keeps_running_same_stdin; reflexivity].
  destruct (args !! 2%nat).
  - destruct (alias_count (sh m) <? MAX_ALIASES)%nat;
      apply keeps_running_same_stdin; reflexivity.
  - destruct (find_alias (alias_count (sh m)) 0 s (aliases (sh m)));
      apply keeps_running_same_stdin; reflexivity.
Qed.

Lemma listnewnames_keeps_running (os : OS) (args : list string) (m : Machine) :
  keeps_running m (listnewnames os args m).
Proof. apply keeps_running_same_stdin, list_loop_frame. Qed.

Lemma savenewnames_keeps_running (os : OS) (args : list string) (m : Machine) :
  keeps_running m (savenewnames os args m).
Proof.
  unfold savenewnames. destruct (args !! 1%nat) as [path|];
    [destruct (os_writable os (os_resolve os (cwd m) path))|];
    apply keeps_running_same_stdin; reflexivity.
Qed.

Lemma readnewnames_keeps_running (os : OS) (args : list string) (m : Machine) :
  keeps_running m (readnewnames os args m).
Proof.
  destruct args as [|cmd [|path extra]];
    [apply keeps_running_same_stdin; reflexivity .. |].
  destruct (files m !! os_resolve os (cwd m) path) as [content|] eqn:Hfile.
  - destruct (readnewnames_spec os cmd path extra m content Hfile)
      as [[_ Hrun]|[_ Hrun]]; rewrite Hrun; [|exact I].
    apply keeps_running_same_stdin. reflexivity.
  - unfold readnewnames.
    change ((cmd :: path :: extra) !! 1%nat) with (Some path). cbv beta iota.
    rewrite Hfile. apply keeps_running_same_stdin. reflexivity.
Qed.

Section Interpreter.

Variable os : OS.
Hypothesis heap_ok : forall n, heap_grants os n = true.
Hypothesis fork_parent : forall m args, os_fork os m args <> 0%Z.

Lemma lsh_launch_keeps_running (args : list string) (m : Machine) :
  keeps_running m (lsh_launch os args m).
Proof.
  unfold lsh_launch.
  destruct (Z.eqb_spec (os_fork os m args) 0) as [E|_];
    [exfalso; exact (fork_parent m args E)|].
  destruct (os_fork os m args <? 0)%Z;
    [apply keeps_running_same_stdin; reflexivity|].
  match goal with
  | |- context [if wait_loop ?st ?rs then _ else _] => destruct (wait_loop st rs)
  end; [|exact I].
  destruct (os_execvp os m args).
  - apply after_child_stdin.
  - apply keeps_running_same_stdin. reflexivity.
Qed.

Lemma run_resolved_keeps_running (name : string) (rest : list string) (m : Machine) :
  keeps_running m (run_resolved os name rest m).
Proof.
  unfold run_resolved, builtin_registry. cbn [registry_lookup].
  repeat match goal with
         | |- context [String.eqb name ?s] => destruct (String.eqb name s)
         end;
    first [ exact (lsh_cd_keeps_running os (name :: rest) m)
          | exact (lsh_help_keeps_running os (name :: rest) m)
          | exact (setshellname_keeps_running os (name :: rest) m)
          | exact (setterminator_keeps_running os (name :: rest) m)
          | exact (newname_keeps_running os (name :: rest) m)
          | exact (listnewnames_keeps_running os (name :: rest) m)
          | exact (savenewnames_keeps_running os (name :: rest) m)
          | exact (readnewnames_keeps_running os (name :: rest) m)
          | exact (lsh_launch_keeps_running (name :: rest) m)
          | apply keeps_running_same_stdin; reflexivity ].
Qed.

Lemma lsh_execute_keeps_running (args : list string) (m : Machine) :
  keeps_running m (lsh_execute os args m).
Proof.
  destruct args as [|a0 rest]; [apply keeps_running_same_stdin; reflexivity|].
  unfold lsh_execute.
  destruct (find_alias (alias_count (sh m)) 0 a0 (aliases (sh m))) as [i|];
    rewrite lsh_execute_resolved; apply run_resolved_keeps_running.
Qed.

(** With enough fuel for its input, the loop returns, or ends the
    process with success, or waits for ever, or runs into undefined
    behaviour; it does not run out of fuel. *)
Lemma lsh_loop_ends_with_success (fuel : nat) (m : Machine) :
  (String.length (stdin m) < fuel)%nat ->
  ends_with_success (lsh_loop os fuel m).
Proof.
  revert m. induction fuel as [|fuel IH]; intros m Hfuel; [lia|].
  destruct (input_line_or_eof (stdin m)) as [Heof|(line & rest & Hin & Hline & Hlen)].
  - rewrite (lsh_loop_eof os heap_ok fuel m Heof). reflexivity.
  - rewrite (lsh_loop_line os heap_ok fuel line rest m Hin Hline).
    unfold bind.
    pose proof (lsh_execute_keeps_running (words is_tok_delim (cstr line))
                  (set_stdin rest (print (prompt (sh m)) m))) as Hrun.
    destruct (lsh_execute os (words is_tok_delim (cstr line))
                (set_stdin rest (print (prompt (sh m)) m)))
      as [status m'| | | | |]; simpl in Hrun; try contradiction; try exact I.
    destruct (status =? 0)%Z; [exact I|]. apply IH. lia.
Qed.

Lemma main_ends_with_success (m : Machine) :
  (exists m', main os m = Exit EXIT_SUCCESS m')
  \/ (exists m', main os m = Blocked m')
  \/ main os m = Undefined.
Proof.
  unfold main, bind, exit.
  pose proof (lsh_loop_ends_with_success (S (String.length (stdin m))) m) as H.
  destruct (lsh_loop os (S (String.length (stdin m))) m)
    as [u m'|status m'| | m'| |]; simpl in H.
  - left. exists m'. reflexivity.
  - left. exists m'. rewrite H by lia. reflexivity.
  - exfalso. apply H. lia.
  - right. left. exists m'. reflexivity.
  - right. right. reflexivity.
  - exfalso. apply H. lia.
Qed.

(** A line whose command, after alias substitution, is [exit] or
    [STOP] ends the process with success; what follows it in the
    input is not read. *)
Lemma main_exit_builtin (m : Machine) (line rest cmd : string) (args : list string) :
  wf_shell (sh m) ->
  stdin m = (line ++ String LF rest)%string ->
  no_newline line = true ->
  words is_tok_delim (cstr line) = cmd :: args ->
  match resolve cmd (table (sh m)) with
  | Some target => target
  | None => cmd
  end = "exit"
  \/ match resolve cmd (table (sh m)) with
     | Some target => target
     | None => cmd
     end = "STOP" ->
  main os m = Exit EXIT_SUCCESS (set_stdin rest (print (prompt (sh m)) m)).
Proof.
  intros Hwf Hin Hline Hwords Hcmd. unfold main.
  unfold bind at 1.
  rewrite (lsh_loop_line os heap_ok _ line rest m Hin Hline), Hwords.
  unfold bind at 1.
  rewrite lsh_execute_run_resolved by exact Hwf. simpl_machine.
  destruct Hcmd as [-> | ->]; reflexivity.
Qed.

Lemma main_end_of_input (m : Machine) :
  no_newline (stdin m) = true ->
  main os m = Exit EXIT_SUCCESS (set_stdin EmptyString (print (prompt (sh m)) m)).
Proof.
  intros Heof. unfold main. unfold bind at 1.
  rewrite (lsh_loop_eof os heap_ok _ m Heof). reflexivity.
Qed.

End Interpreter.

(** ** The exit status *)

(** C5.  In the interpreter (allocations granted, not the forked
    child), every way the process ends is with status [EXIT_SUCCESS]:
    [main] ends with [EXIT_SUCCESS], or never ends because a child
    never does, or has run into undefined behaviour.  [exit] and [STOP]
    return 0, and a line whose command is one of them after alias
    substitution ends the process with success without reading further.
    At the end of the input, whatever characters were typed since the
    last newline, the process ends at once with success: the prompt is
    the only output and nothing else in the machine has changed. *)
Theorem interpreter_exits_with_success (os : OS) (m : Machine) :
  (forall n, heap_grants os n = true) ->
  (forall m' args, os_fork os m' args <> 0%Z) ->
  ((exists m', main os m = Exit EXIT_SUCCESS m')
   \/ (exists m', main os m = Blocked m')
   \/ main os m = Undefined)
  /\ (forall args, lsh_exit os args m = Ret 0%Z m /\ lsh_stop os args m = Ret 0%Z m)
  /\ (forall line rest cmd args,
        wf_shell (sh m) ->
        stdin m = (line ++ String LF rest)%string ->
        no_newline line = true ->
        words is_tok_delim (cstr line) = cmd :: args ->
        match resolve cmd (table (sh m)) with
        | Some target => target
        | None => cmd
        end = "exit"
        \/ match resolve cmd (table (sh m)) with
           | Some target => target
           | None => cmd
           end = "STOP" ->
        main os m = Exit EXIT_SUCCESS (set_stdin rest (print (prompt (sh m)) m)))
  /\ (no_newline (stdin m) = true ->
      main os m = Exit EXIT_SUCCESS (set_stdin EmptyString (print (prompt (sh m)) m))
      /\ forall fuel,
           lsh_loop os (S fuel) m
           = Exit EXIT_SUCCESS (set_stdin EmptyString (print (prompt (sh m)) m))).
Proof.
  intros Hheap Hfork. split; [|split; [|split]].
  - apply main_ends_with_success; assumption.
  - intros args. split; reflexivity.
  - intros line rest cmd args. apply main_exit_builtin; assumption.
  - intros Heof. split.
    + apply main_end_of_input; assumption.
    + intros fuel. apply lsh_loop_eof; assumption.
Qed.

Lemma interpreter_exits_with_success_witness :
  (forall n, heap_grants sample_os n = true)
  /\ (forall m' args, os_fork sample_os m' args <> 0%Z)
  /\ main sample_os quit_machine
     = Exit EXIT_SUCCESS (set_stdin "ls" (print "myshell> " quit_machine)).
Proof.
  assert (Hheap : forall n, heap_grants sample_os n = true) by reflexivity.
  assert (Hfork : forall m' args, os_fork sample_os m' args <> 0%Z) by discriminate.
  split; [exact Hheap|]. split; [exact Hfork|].
  destruct (interpreter_exits_with_success sample_os quit_machine Hheap Hfork)
    as (_ & _ & Hexit & _).
  apply (Hexit "q now" "ls" "q" ["now"]).
  - split; simpl; unfold MAX_ALIASES; lia.
  - reflexivity.
  - reflexivity.
  - reflexivity.
  - left. reflexivity.
Defined.

(** ** The prompt *)

Lemma prompt_scenario_run (os : OS) (dir : string) (fs : gmap string string) :
  (forall n, heap_grants os n = true) ->
  main os (initial_machine dir fs prompt_scenario)
  = Exit EXIT_SUCCESS
      (mkMachine (mkShell "bob" "$" (replicate MAX_ALIASES null_alias) 0) dir fs
         EmptyString [ "myshell> "; "bob> "; "bob$ " ] []).
Proof.
  intros Hheap. unfold main. unfold bind at 1.
  set (n := String.length (stdin (initial_machine dir fs prompt_scenario))).
  vm_compute in n. subst n.
  rewrite (lsh_loop_line os Hheap _ "setshellname bob" ("setterminator $" ++ nl)%string)
    by reflexivity.
  unfold bind at 1.
  match goal with
  | |- context [lsh_execute os ?w ?m1] =>
      replace (lsh_execute os w m1)
        with (Ret (A := Z) 1%Z
                (mkMachine (mkShell "bob" ">" (replicate MAX_ALIASES null_alias) 0)
                   dir fs ("setterminator $" ++ nl)%string [ "myshell> " ] []))
        by reflexivity
  end.
  change (1 =? 0)%Z with false. cbv iota.
  rewrite (lsh_loop_line os Hheap _ "setterminator $" EmptyString) by reflexivity.
  unfold bind at 1.
  match goal with
  | |- context [lsh_execute os ?w ?m1] =>
      replace (lsh_execute os w m1)
        with (Ret (A := Z) 1%Z
                (mkMachine (mkShell "bob" "$" (replicate MAX_ALIASES null_alias) 0)
                   dir fs EmptyString [ "myshell> "; "bob> " ] []))
        by reflexivity
  end.
  change (1 =? 0)%Z with false. cbv iota.
  rewrite (lsh_loop_eof os Hheap) by reflexivity.
  reflexivity.
Qed.

(** C8.  Each pass of the loop writes the current [shellname]
    immediately followed by the current [terminator] and one space,
    and only then reads.  On the input "setshellname bob",
    "setterminator $" the prompts written are "myshell> ", "bob> " and
    then "bob$ ".  [setshellname] and [setterminator] without argument
    put back "myshell" and ">"; with an argument they store it. *)
Theorem prompt_is_name_terminator_space (os : OS) (m : Machine) :
  (forall n, heap_grants os n = true) ->
  (forall fuel line rest,
     stdin m = (line ++ String LF rest)%string ->
     no_newline line = true ->
     lsh_loop os (S fuel) m
     = (do status <- lsh_execute os (words is_tok_delim (cstr line));
        if (status =? 0)%Z then ret tt else lsh_loop os fuel)
         (mkMachine (sh m) (cwd m) (files m) rest
            (stdout m ++ [(shellname (sh m) ++ terminator (sh m) ++ " ")%string])
            (stderr m)))
  /\ (forall fuel,
        no_newline (stdin m) = true ->
        lsh_loop os (S fuel) m
        = Exit EXIT_SUCCESS
            (mkMachine (sh m) (cwd m) (files m) EmptyString
               (stdout m ++ [(shellname (sh m) ++ terminator (sh m) ++ " ")%string])
               (stderr m)))
  /\ (forall dir fs,
        exists m',
          main os (initial_machine dir fs prompt_scenario) = Exit EXIT_SUCCESS m'
          /\ stdout m' = [ "myshell> "; "bob> "; "bob$ " ]
          /\ prompt (sh m') = "bob$ ")
  /\ (forall cmd,
        (exists m', setshellname os [cmd] m = Ret 1%Z m'
                    /\ shellname (sh m') = "myshell"
                    /\ terminator (sh m') = terminator (sh m))
        /\ (exists m', setterminator os [cmd] m = Ret 1%Z m'
                       /\ terminator (sh m') = ">"
                       /\ shellname (sh m') = shellname (sh m)))
  /\ (forall cmd value extra,
        (exists m', setshellname os (cmd :: value :: extra) m = Ret 1%Z m'
                    /\ shellname (sh m') = value
                    /\ terminator (sh m') = terminator (sh m))
        /\ (exists m', setterminator os (cmd :: value :: extra) m = Ret 1%Z m'
                       /\ terminator (sh m') = value
                       /\ shellname (sh m') = shellname (sh m))).
Proof.
  intros Hheap. split; [|split; [|split; [|split]]].
  - intros fuel line rest Hin Hline. apply lsh_loop_line; assumption.
  - intros fuel Heof. apply lsh_loop_eof; assumption.
  - intros dir fs. eexists. split; [apply prompt_scenario_run, Hheap|].
    split; reflexivity.
  - intros cmd. split; eexists; (split; [reflexivity | split; reflexivity]).
  - intros cmd value extra. split; eexists; (split; [reflexivity | split; reflexivity]).
Qed.

Lemma prompt_is_name_terminator_space_witness :
  (forall n, heap_grants sample_os n = true)
  /\ exists m',
       main sample_os (initial_machine "/home" ∅ prompt_scenario) = Exit EXIT_SUCCESS m'
       /\ stdout m' = [ "myshell> "; "bob> "; "bob$ " ]
       /\ prompt (sh m') = "bob$ ".
Proof.
  assert (Hheap : forall n, heap_grants sample_os n = true) by reflexivity.
  split; [exact Hheap|].
  exact (proj1 (proj2 (proj2 (prompt_is_name_terminator_space sample_os
                                (initial_machine "/home" ∅ prompt_scenario) Hheap)))
           "/home" ∅).
Defined.

(** ** The array invariant is kept by every command *)

Lemma keeps_wf_same_shell (m m' : Machine) (v : Z) :
  sh m' = sh m -> keeps_wf m (Ret v m').
Proof. intros H. simpl. rewrite H. auto. Qed.

Lemma run_resolved_keeps_wf (os : OS) (name : string) (rest : list string) (m : Machine) :
  keeps_wf m (run_resolved os name rest m).
Proof.
  unfold run_resolved, builtin_registry. cbn [registry_lookup].
  repeat match goal with
         | |- context [String.eqb name ?s] => destruct (String.eqb name s)
         end.
  - unfold lsh_cd. destruct ((name :: rest) !! 1%nat) as [dir|];
      [destruct (os_chdir os (cwd m) dir)|]; apply keeps_wf_same_shell; reflexivity.
  - apply keeps_wf_same_shell. unfold lsh_help. generalize help_text. intros lines.
    revert m. induction lines as [|l lines IH]; intros m; [reflexivity|].
    simpl. rewrite IH. reflexivity.
  - apply keeps_wf_same_shell. reflexivity.
  - unfold setshellname. destruct ((name :: rest) !! 1%nat); simpl; auto.
  - unfold setterminator. destruct ((name :: rest) !! 1%nat); simpl; auto.
  - unfold keeps_wf.
    destruct (newname os (name :: rest) m) as [v m'| | | | |] eqn:Hrun; try exact I.
    intros Hwf. destruct (newname_outcome os (name :: rest) m Hwf) as (m1 & H1 & Hwf1 & _).
    congruence.
  - apply keeps_wf_same_shell, list_loop_frame.
  - unfold savenewnames. destruct ((name :: rest) !! 1%nat) as [path|];
      [destruct (os_writable os (os_resolve os (cwd m) path))|];
      apply keeps_wf_same_shell; reflexivity.
  - unfold keeps_wf.
    destruct (readnewnames os (name :: rest) m) as [v m'| | | | |] eqn:Hrun; try exact I.
    intros Hwf.
    destruct (readnewnames_outcome os (name :: rest) m Hwf)
      as [[H1 _]|(m1 & H1 & Hwf1 & _)]; congruence.
  - apply keeps_wf_same_shell. reflexivity.
  - unfold lsh_launch.
    destruct (os_fork os m (name :: rest) =? 0)%Z;
      [destruct (os_execvp os m (name :: rest)); exact I|].
    destruct (os_fork os m (name :: rest) <? 0)%Z;
      [apply keeps_wf_same_shell; reflexivity|].
    match goal with
    | |- context [if wait_loop ?st ?rs then _ else _] => destruct (wait_loop st rs)
    end; [|exact I].
    apply keeps_wf_same_shell. destruct (os_execvp os m (name :: rest)); reflexivity.
Qed.

(** Whatever the command, a state with the array at its declared size
    and the count within it is followed by such a state. *)
Lemma lsh_execute_keeps_wf (os : OS) (args : list string) (m : Machine) :
  keeps_wf m (lsh_execute os args m).
Proof.
  destruct args as [|a0 rest]; [apply keeps_wf_same_shell; reflexivity|].
  unfold lsh_execute.
  destruct (find_alias (alias_count (sh m)) 0 a0 (aliases (sh m))) as [i|];
    rewrite lsh_execute_resolved; apply run_resolved_keeps_wf.
Qed.

(** ** Worked examples *)

Example strtok_splits_on_bell :
  words is_tok_delim ("newname" ++ String HT "ll" ++ String BEL "ls")
  = ["newname"; "ll"; "ls"].
Proof. reflexivity. Qed.

Example fscanf_reads_across_lines :
  fscanf_s_s ("ll" ++ nl ++ "ls" ++ String VT "g grep")
  = ScanTwo "ll" "ls" (String VT "g grep").
Proof. reflexivity. Qed.

(** Scenario D of the specification: [listnewnames] after defining
    [(a, b)] then [(c, d)]. *)
Example listnewnames_in_table_order :
  exists m',
    main sample_os
      (initial_machine "/home" ∅
         ("newname a b" ++ nl ++ "newname c d" ++ nl ++ "listnewnames" ++ nl)%string)
    = Exit EXIT_SUCCESS m'
    /\ stdout m'
       = [ "myshell> "; "myshell> "; "myshell> ";
           ("a -> b" ++ nl)%string; ("c -> d" ++ nl)%string; "myshell> " ].
Proof. eexists. split; vm_compute; reflexivity. Qed.

(** Scenario B: an alias carries the target name only. *)
Example alias_carries_no_arguments :
  lsh_execute sample_os ["ll"] (machine_of_table [mkAlias "ll" "ls"] EmptyString)
  = lsh_launch sample_os ["ls"] (machine_of_table [mkAlias "ll" "ls"] EmptyString).
Proof. reflexivity. Qed.

(** * Further properties *)

(** ** The tokenizer *)

Lemma words_tokens (p : ascii -> bool) (s : string) :
  Forall (fun w => w <> EmptyString /\ all_chars (fun c => negb (p c)) w = true)
         (words p s).
Proof.
  induction s as [|c s IH]; [constructor|].
  destruct (p c) eqn:Hc.
  - cbn [words]. rewrite Hc. exact IH.
  - rewrite (words_cons p s c Hc).
    assert (Hone : String c EmptyString <> EmptyString
                   /\ all_chars (fun x => negb (p x)) (String c EmptyString) = true).
    { split; [discriminate | simpl; rewrite Hc; reflexivity]. }
    destruct s as [|c' s']; [repeat constructor; apply Hone|].
    destruct (p c'); [constructor; [exact Hone | exact IH]|].
    destruct (words p (String c' s')) as [|w ws]; [repeat constructor; apply Hone|].
    inversion IH as [|? ? [Hw1 Hw2] Hws]; subst.
    constructor; [|exact Hws].
    split; [discriminate | simpl; rewrite Hc, Hw2; reflexivity].
Qed.

Lemma words_concat (p : ascii -> bool) (s : string) :
  concat_words (words p s) = filter_chars (fun c => negb (p c)) s.
Proof.
  induction s as [|c s IH]; [reflexivity|].
  destruct (p c) eqn:Hc.
  - cbn [words filter_chars]. rewrite Hc. exact IH.
  - rewrite (words_cons p s c Hc). cbn [filter_chars]. rewrite Hc. cbn [negb].
    rewrite <- IH. clear IH.
    destruct s as [|c' s']; [reflexivity|].
    destruct (p c'); [reflexivity|].
    destruct (words p (String c' s')) as [|w ws]; reflexivity.
Qed.

Lemma words_all_delims (p : ascii -> bool) (s : string) :
  all_chars p s = true -> words p s = [].
Proof.
  induction s as [|c s IH]; [reflexivity|]. simpl.
  intros H. apply andb_true_iff in H as [Hc Hs]. rewrite Hc. exact (IH Hs).
Qed.

(** The token loop with room for every word: no call to [realloc]. *)
Lemma split_loop_room (os : OS) (fuel : nat) (text : string) (tokens : list string)
    (bufsize : nat) (m : Machine) :
  (String.length text < fuel)%nat ->
  (length tokens + length (words is_tok_delim text) < bufsize)%nat ->
  split_loop os fuel text tokens bufsize m
  = Ret (tokens ++ words is_tok_delim text) m.
Proof.
  revert text tokens. induction fuel as [|fuel IH]; intros text tokens Hfuel Hroom; [lia|].
  cbn [split_loop].
  destruct (strtok text) as [[tok rest]|] eqn:Htok.
  - destruct (strtok_Some _ _ _ Htok) as [Hw Hl]. rewrite Hw in *.
    simpl in Hroom.
    destruct (Nat.leb_spec bufsize (length (tokens ++ [tok]))) as [Hle|Hgt].
    + rewrite length_app in Hle. simpl in Hle. lia.
    + rewrite IH; [rewrite <- app_assoc; reflexivity | lia |].
      rewrite length_app. simpl. lia.
  - rewrite (strtok_None _ Htok), app_nil_r. reflexivity.
Qed.

(** The token loop when the words do not fit and growing is refused. *)
Lemma split_loop_refused (os : OS) (fuel : nat) (text : string) (tokens : list string)
    (bufsize : nat) (m : Machine) :
  heap_grants os ((bufsize + LSH_TOK_BUFSIZE) * sizeof_char_ptr) = false ->
  (String.length text < fuel)%nat ->
  (length tokens < bufsize)%nat ->
  (bufsize <= length tokens + length (words is_tok_delim text))%nat ->
  split_loop os fuel text tokens bufsize m
  = Exit EXIT_FAILURE (eprint alloc_error m).
Proof.
  intros Hheap. revert text tokens.
  induction fuel as [|fuel IH]; intros text tokens Hfuel Hlt Hge; [lia|].
  cbn [split_loop].
  destruct (strtok text) as [[tok rest]|] eqn:Htok.
  - destruct (strtok_Some _ _ _ Htok) as [Hw Hl]. rewrite Hw in Hge.
    simpl in Hge.
    destruct (Nat.leb_spec bufsize (length (tokens ++ [tok]))) as [Hle|Hgt].
    + rewrite Hheap. reflexivity.
    + rewrite length_app in Hgt. simpl in Hgt.
      apply IH; [lia | rewrite length_app; simpl; lia | rewrite length_app; simpl; lia].
  - rewrite (strtok_None _ Htok) in Hge. simpl in Hge. lia.
Qed.

Lemma append_empty_r (a : string) : (a ++ EmptyString)%string = a.
Proof. induction a as [|x a IH]; [reflexivity | exact (f_equal (String x) IH)]. Qed.

Lemma words_app_delims (p : ascii -> bool) (lead s : string) :
  all_chars p lead = true -> words p (lead ++ s)%string = words p s.
Proof.
  induction lead as [|c lead IH]; [reflexivity|].
  cbn [all_chars]. intros H. apply andb_true_iff in H as [Hc Hl].
  change (String c lead ++ s)%string with (String c (lead ++ s)%string).
  cbn [words]. rewrite Hc. exact (IH Hl).
Qed.

Lemma words_plain (p : ascii -> bool) (w : string) :
  non_empty w = true ->
  all_chars (fun c => negb (p c)) w = true ->
  words p w = [w].
Proof.
  induction w as [|c w IH]; [discriminate|]. intros _ Hall.
  cbn [all_chars] in Hall. apply andb_true_iff in Hall as [Hc Hw].
  apply negb_true_iff in Hc. rewrite (words_cons p w c Hc).
  destruct w as [|c' w']; [reflexivity|].
  pose proof Hw as Hw'. cbn [all_chars] in Hw'.
  apply andb_true_iff in Hw' as [Hc' _]. apply negb_true_iff in Hc'.
  rewrite Hc', (IH eq_refl Hw). reflexivity.
Qed.

Lemma words_join (p : ascii -> bool) (tws : list (string * string)) :
  separated p tws = true -> words p (join_words tws) = map fst tws.
Proof.
  induction tws as [|[w d] rest IH]; [reflexivity|].
  cbn [separated join_words map fst]. intros H.
  apply andb_true_iff in H as [H Hrest].
  apply andb_true_iff in H as [H Hsep].
  apply andb_true_iff in H as [H Hd].
  apply andb_true_iff in H as [Hne Hw].
  destruct d as [|c d].
  - destruct rest as [|tw rest]; [|discriminate].
    cbn [join_words String.append]. rewrite append_empty_r.
    apply words_plain; assumption.
  - cbn [all_chars] in Hd. apply andb_true_iff in Hd as [Hc Hd].
    change (String c d ++ join_words rest)%string
      with (String c (d ++ join_words rest)%string).
    rewrite words_token; [|destruct w; [discriminate | congruence] | exact Hw | exact Hc].
    rewrite (words_app_delims p d _ Hd), (IH Hrest). reflexivity.
Qed.

(** Every line is a run of delimiters followed by separated tokens. *)
Lemma line_decomposition (p : ascii -> bool) (s : string) :
  exists lead tws,
    s = (lead ++ join_words tws)%string
    /\ all_chars p lead = true
    /\ separated p tws = true.
Proof.
  induction s as [|c s (lead & tws & Hs & Hlead & Hsep)].
  - exists EmptyString, []. repeat split.
  - destruct (p c) eqn:Hc.
    + exists (String c lead), tws. split; [rewrite Hs; reflexivity|].
      split; [cbn [all_chars]; rewrite Hc, Hlead; reflexivity | exact Hsep].
    + destruct lead as [|d lead].
      * destruct tws as [|[w r] rest].
        -- exists EmptyString, [(String c EmptyString, EmptyString)].
           split; [rewrite Hs; reflexivity|]. split; [reflexivity|].
           cbn [separated non_empty all_chars]. rewrite Hc. reflexivity.
        -- exists EmptyString, ((String c w, r) :: rest).
           split; [rewrite Hs; reflexivity|]. split; [reflexivity|].
           cbn [separated non_empty all_chars] in *. rewrite Hc. cbn [negb andb].
           apply andb_true_iff in Hsep as [H Hrest].
           apply andb_true_iff in H as [H Hlast].
           apply andb_true_iff in H as [H Hr].
           apply andb_true_iff in H as [_ Hw].
           rewrite Hw, Hr, Hlast, Hrest. reflexivity.
      * exists EmptyString, ((String c EmptyString, String d lead) :: tws).
        split; [rewrite Hs; reflexivity|]. split; [reflexivity|].
        cbn [separated non_empty]. rewrite Hlead, Hsep.
        cbn [all_chars]. rewrite Hc. destruct tws; reflexivity.
Qed.

(** X1.  When the first buffer is granted and the line has fewer than
    64 tokens, [lsh_split_line] returns, without touching the machine
    and without asking for more memory, exactly the tokens of the
    line.  The line is a run of delimiters followed by tokens, each
    non-empty, free of the five delimiters and followed by a run of
    delimiters that is non-empty for every token but the last; the
    result is the list of those tokens, in order, and every way of
    taking the line apart in this manner gives the same list.  So two
    tokens are never glued together, none is cut, dropped or added. *)
Theorem lsh_split_line_tokens (os : OS) (line : string) (m : Machine) :
  heap_grants os (LSH_TOK_BUFSIZE * sizeof_char_ptr) = true ->
  (length (words is_tok_delim line) < LSH_TOK_BUFSIZE)%nat ->
  exists lead tws,
    line = (lead ++ join_words tws)%string
    /\ all_chars is_tok_delim lead = true
    /\ separated is_tok_delim tws = true
    /\ lsh_split_line os line m = Ret (map fst tws) m
    /\ words is_tok_delim line = map fst tws
    /\ (forall lead' tws',
          line = (lead' ++ join_words tws')%string ->
          all_chars is_tok_delim lead' = true ->
          separated is_tok_delim tws' = true ->
          map fst tws' = map fst tws)
    /\ Forall (fun w => w <> EmptyString
                        /\ all_chars (fun c => negb (is_tok_delim c)) w = true)
              (map fst tws)
    /\ concat_words (map fst tws)
       = filter_chars (fun c => negb (is_tok_delim c)) line.
Proof.
  intros Hheap Hfew.
  destruct (line_decomposition is_tok_delim line) as (lead & tws & Hline & Hlead & Hsep).
  assert (Hwords : words is_tok_delim line = map fst tws).
  { rewrite Hline, (words_app_delims _ _ _ Hlead). apply words_join, Hsep. }
  exists lead, tws.
  split; [exact Hline|]. split; [exact Hlead|]. split; [exact Hsep|].
  split; [|split; [exact Hwords|split; [|split]]].
  - rewrite <- Hwords. unfold lsh_split_line. rewrite Hheap.
    rewrite split_loop_room; [reflexivity | lia | simpl; exact Hfew].
  - intros lead' tws' Hline' Hlead' Hsep'. rewrite <- Hwords, Hline'.
    rewrite (words_app_delims _ _ _ Hlead'). symmetry. apply words_join, Hsep'.
  - rewrite <- Hwords. apply words_tokens.
  - rewrite <- Hwords. apply words_concat.
Qed.

Lemma lsh_split_line_tokens_witness :
  heap_grants (limited_os 512) (LSH_TOK_BUFSIZE * sizeof_char_ptr) = true
  /\ (length (words is_tok_delim ("  cd" ++ String HT "/tmp " ++ String CR EmptyString)%string)
      < LSH_TOK_BUFSIZE)%nat
  /\ lsh_split_line (limited_os 512)
       ("  cd" ++ String HT "/tmp " ++ String CR EmptyString)%string duplicate_machine
     = Ret ["cd"; "/tmp"] duplicate_machine.
Proof.
  assert (H1 : heap_grants (limited_os 512) (LSH_TOK_BUFSIZE * sizeof_char_ptr) = true)
    by reflexivity.
  assert (H2 : (length (words is_tok_delim
                          ("  cd" ++ String HT "/tmp " ++ String CR EmptyString)%string)
                < LSH_TOK_BUFSIZE)%nat) by (vm_compute; lia).
  split; [exact H1|]. split; [exact H2|].
  destruct (lsh_split_line_tokens (limited_os 512) _ duplicate_machine H1 H2)
    as (lead & tws & _ & _ & _ & Hrun & _ & Huniq & _).
  rewrite Hrun. f_equal. symmetry.
  exact (Huniq "  "%string
           [("cd", String HT EmptyString); ("/tmp", String SP (String CR EmptyString))]
           eq_refl eq_refl eq_refl).
Defined.

(** X2.  A line with 64 words or more makes [lsh_split_line] ask for a
    larger buffer; when that request is refused the process ends with
    [EXIT_FAILURE] after writing the allocation diagnostic, and nothing
    else has changed. *)
Theorem lsh_split_line_growth_refused (os : OS) (line : string) (m : Machine) :
  heap_grants os (LSH_TOK_BUFSIZE * sizeof_char_ptr) = true ->
  heap_grants os ((LSH_TOK_BUFSIZE + LSH_TOK_BUFSIZE) * sizeof_char_ptr) = false ->
  (LSH_TOK_BUFSIZE <= length (words is_tok_delim line))%nat ->
  lsh_split_line os line m
  = Exit EXIT_FAILURE (eprint ("lsh: allocation error" ++ nl)%string m).
Proof.
  intros H1 H2 Hmany. unfold lsh_split_line. rewrite H1.
  apply split_loop_refused; [exact H2 | lia | simpl; unfold LSH_TOK_BUFSIZE; lia |].
  simpl. exact Hmany.
Qed.

Lemma lsh_split_line_growth_refused_witness :
  heap_grants (limited_os 512) (LSH_TOK_BUFSIZE * sizeof_char_ptr) = true
  /\ heap_grants (limited_os 512)
       ((LSH_TOK_BUFSIZE + LSH_TOK_BUFSIZE) * sizeof_char_ptr) = false
  /\ (LSH_TOK_BUFSIZE <= length (words is_tok_delim (many_words 64)))%nat
  /\ lsh_split_line (limited_os 512) (many_words 64) duplicate_machine
     = Exit EXIT_FAILURE (eprint ("lsh: allocation error" ++ nl)%string duplicate_machine).
Proof.
  assert (H1 : heap_grants (limited_os 512) (LSH_TOK_BUFSIZE * sizeof_char_ptr) = true)
    by reflexivity.
  assert (H2 : heap_grants (limited_os 512)
                 ((LSH_TOK_BUFSIZE + LSH_TOK_BUFSIZE) * sizeof_char_ptr) = false)
    by reflexivity.
  assert (H3 : (LSH_TOK_BUFSIZE <= length (words is_tok_delim (many_words 64)))%nat)
    by (vm_compute; lia).
  split; [exact H1|]. split; [exact H2|]. split; [exact H3|].
  exact (lsh_split_line_growth_refused (limited_os 512) (many_words 64)
           duplicate_machine H1 H2 H3).
Defined.

(** ** The line reader *)

Lemma length_append (a b : string) :
  String.length (a ++ b)%string = (String.length a + String.length b)%nat.
Proof. induction a as [|x a IH]; simpl; [reflexivity | rewrite IH; reflexivity]. Qed.


(** The reading loop with room for the whole line: no [realloc]. *)
Lemma read_chars_room (os : OS) (line rest buffer : string) (bufsize : nat) (m : Machine) :
  no_newline line = true ->
  (String.length buffer + String.length line < bufsize)%nat ->
  read_chars os (line ++ String LF rest)%string buffer bufsize m
  = Ret (cstr (buffer ++ line)%string) (set_stdin rest m).
Proof.
  revert buffer. induction line as [|c line IH]; intros buffer Hline Hroom.
  - change (EmptyString ++ String LF rest)%string with (String LF rest).
    cbn [read_chars]. rewrite Ascii.eqb_refl, append_empty_r. reflexivity.
  - unfold no_newline in Hline. simpl in Hline.
    apply andb_true_iff in Hline as [Hc Hline]. apply negb_true_iff in Hc.
    change (String c line ++ String LF rest)%string
      with (String c (line ++ String LF rest)).
    cbn [read_chars]. rewrite Hc.
    destruct (Nat.leb_spec bufsize (String.length (buffer ++ String c EmptyString)))
      as [Hle|Hgt].
    + rewrite length_append in Hle. simpl in *. lia.
    + rewrite IH; [ | exact Hline | rewrite length_append; simpl in *; lia ].
      rewrite append_assoc. reflexivity.
Qed.

Lemma read_chars_room_eof (os : OS) (input buffer : string) (bufsize : nat) (m : Machine) :
  no_newline input = true ->
  (String.length buffer + String.length input < bufsize)%nat ->
  read_chars os input buffer bufsize m = Exit EXIT_SUCCESS (set_stdin EmptyString m).
Proof.
  revert buffer. induction input as [|c input IH]; intros buffer Hin Hroom; [reflexivity|].
  unfold no_newline in Hin. simpl in Hin.
  apply andb_true_iff in Hin as [Hc Hin]. apply negb_true_iff in Hc.
  cbn [read_chars]. rewrite Hc.
  destruct (Nat.leb_spec bufsize (String.length (buffer ++ String c EmptyString)))
    as [Hle|Hgt].
  - rewrite length_append in Hle. simpl in *. lia.
  - apply IH; [exact Hin | rewrite length_append; simpl in *; lia].
Qed.

(** The reading loop when the buffer fills up and growing is refused. *)
Lemma read_chars_refused (os : OS) (pre post buffer : string) (bufsize : nat) (m : Machine) :
  heap_grants os (bufsize + LSH_RL_BUFSIZE) = false ->
  no_newline pre = true ->
  (String.length buffer < bufsize)%nat ->
  (String.length buffer + String.length pre = bufsize)%nat ->
  read_chars os (pre ++ post)%string buffer bufsize m
  = Exit EXIT_FAILURE (eprint alloc_error (set_stdin post m)).
Proof.
  intros Hheap. revert buffer.
  induction pre as [|c pre IH]; intros buffer Hpre Hlt Hfull; [simpl in Hfull; lia|].
  unfold no_newline in Hpre. simpl in Hpre.
  apply andb_true_iff in Hpre as [Hc Hpre]. apply negb_true_iff in Hc.
  change (String c pre ++ post)%string with (String c (pre ++ post)).
  cbn [read_chars]. rewrite Hc.
  destruct (Nat.leb_spec bufsize (String.length (buffer ++ String c EmptyString)))
    as [Hle|Hgt].
  - rewrite Hheap. rewrite length_append in Hle. simpl in Hle, Hfull.
    destruct pre as [|c' pre']; [reflexivity | simpl in Hfull; lia].
  - rewrite length_append in Hgt. simpl in Hgt, Hfull.
    apply IH; [exact Hpre | rewrite length_append; simpl; lia
              | rewrite length_append; simpl; lia].
Qed.

(** X3.  With only the first buffer of 1024 bytes granted,
    [lsh_read_line] reads a line of fewer than 1024 characters: it
    returns the characters before the newline (up to the first NUL, if
    the line holds one), takes the line and its newline from the input
    and leaves what follows; nothing else changes.  If the input ends
    before any newline, within 1023 characters, the process ends with
    [EXIT_SUCCESS]. *)
Theorem lsh_read_line_short_line (os : OS) (m : Machine) :
  heap_grants os LSH_RL_BUFSIZE = true ->
  (forall line rest,
     stdin m = (line ++ String LF rest)%string ->
     no_newline line = true ->
     (String.length line < LSH_RL_BUFSIZE)%nat ->
     lsh_read_line os m = Ret (cstr line) (set_stdin rest m))
  /\ (no_newline (stdin m) = true ->
      (String.length (stdin m) < LSH_RL_BUFSIZE)%nat ->
      lsh_read_line os m = Exit EXIT_SUCCESS (set_stdin EmptyString m)).
Proof.
  intros Hheap. split.
  - intros line rest Hin Hline Hshort. unfold lsh_read_line. rewrite Hheap, Hin.
    apply (read_chars_room os line rest EmptyString); [exact Hline | simpl; lia].
  - intros Hin Hshort. unfold lsh_read_line. rewrite Hheap.
    apply read_chars_room_eof; [exact Hin | simpl; lia].
Qed.

Lemma lsh_read_line_short_line_witness :
  heap_grants (limited_os 1024) LSH_RL_BUFSIZE = true
  /\ lsh_read_line (limited_os 1024)
       (machine_of_table [] ("ls -l" ++ String NUL "hidden" ++ nl ++ "pwd"))
     = Ret "ls -l" (machine_of_table [] "pwd").
Proof.
  assert (H : heap_grants (limited_os 1024) LSH_RL_BUFSIZE = true) by reflexivity.
  split; [exact H|].
  apply (proj1 (lsh_read_line_short_line (limited_os 1024)
                  (machine_of_table [] ("ls -l" ++ String NUL "hidden" ++ nl ++ "pwd")) H)
           ("ls -l" ++ String NUL "hidden")%string "pwd").
  - reflexivity.
  - reflexivity.
  - vm_compute. lia.
Defined.

(** X4.  When the input starts with 1024 characters that are not
    newlines, [lsh_read_line] asks for a larger buffer as soon as the
    1024th is stored, even if the next character is the newline; when
    that request is refused the process ends with [EXIT_FAILURE] after
    writing the allocation diagnostic, with exactly those 1024
    characters taken from the input. *)
Theorem lsh_read_line_growth_refused (os : OS) (pre post : string) (m : Machine) :
  heap_grants os LSH_RL_BUFSIZE = true ->
  heap_grants os (LSH_RL_BUFSIZE + LSH_RL_BUFSIZE) = false ->
  stdin m = (pre ++ post)%string ->
  no_newline pre = true ->
  String.length pre = LSH_RL_BUFSIZE ->
  lsh_read_line os m
  = Exit EXIT_FAILURE (eprint ("lsh: allocation error" ++ nl)%string (set_stdin post m)).
Proof.
  intros H1 H2 Hin Hpre Hlen. unfold lsh_read_line. rewrite H1, Hin.
  apply read_chars_refused;
    [exact H2 | exact Hpre | simpl; unfold LSH_RL_BUFSIZE; lia | simpl; exact Hlen].
Qed.

Lemma lsh_read_line_growth_refused_witness :
  heap_grants (limited_os 1024) LSH_RL_BUFSIZE = true
  /\ heap_grants (limited_os 1024) (LSH_RL_BUFSIZE + LSH_RL_BUFSIZE) = false
  /\ no_newline (repeat_char "x" 1024) = true
  /\ String.length (repeat_char "x" 1024) = LSH_RL_BUFSIZE
  /\ lsh_read_line (limited_os 1024)
       (machine_of_table [] (repeat_char "x" 1024 ++ nl))
     = Exit EXIT_FAILURE
         (eprint ("lsh: allocation error" ++ nl)%string (machine_of_table [] nl)).
Proof.
  assert (H1 : heap_grants (limited_os 1024) LSH_RL_BUFSIZE = true) by reflexivity.
  assert (H2 : heap_grants (limited_os 1024) (LSH_RL_BUFSIZE + LSH_RL_BUFSIZE) = false)
    by reflexivity.
  assert (H3 : no_newline (repeat_char "x" 1024) = true) by (vm_compute; reflexivity).
  assert (H4 : String.length (repeat_char "x" 1024) = LSH_RL_BUFSIZE)
    by (vm_compute; reflexivity).
  split; [exact H1|]. split; [exact H2|]. split; [exact H3|]. split; [exact H4|].
  exact (lsh_read_line_growth_refused (limited_os 1024) (repeat_char "x" 1024) nl
           (machine_of_table [] (repeat_char "x" 1024 ++ nl)) H1 H2 eq_refl H3 H4).
Defined.

(** ** Blank lines *)

(** X5.  A line that holds only delimiters before its first NUL yields
    no token, and [lsh_execute] on no token returns 1 with the machine
    untouched: the pass of the loop only writes the prompt and takes
    the line from the input, then the loop goes on. *)
Theorem blank_line_only_reprints_prompt
    (os : OS) (fuel : nat) (line rest : string) (m : Machine) :
  (forall n, heap_grants os n = true) ->
  stdin m = (line ++ String LF rest)%string ->
  no_newline line = true ->
  all_chars is_tok_delim (cstr line) = true ->
  lsh_execute os [] m = Ret 1%Z m
  /\ lsh_split_line os (cstr line) m = Ret [] m
  /\ lsh_loop os (S fuel) m
     = lsh_loop os fuel (set_stdin rest (print (prompt (sh m)) m)).
Proof.
  intros Hheap Hin Hline Hblank.
  pose proof (words_all_delims is_tok_delim (cstr line) Hblank) as Hw.
  split; [reflexivity|]. split.
  - rewrite (lsh_split_line_words os Hheap). rewrite Hw. reflexivity.
  - rewrite (lsh_loop_line os Hheap fuel line rest m Hin Hline), Hw. reflexivity.
Qed.

Lemma blank_line_only_reprints_prompt_witness :
  (forall n, heap_grants sample_os n = true)
  /\ lsh_loop sample_os 2 (machine_of_table [] (String HT " " ++ nl ++ "exit" ++ nl))
     = lsh_loop sample_os 1
         (set_stdin ("exit" ++ nl) (print "myshell> " (machine_of_table [] EmptyString))).
Proof.
  assert (H : forall n, heap_grants sample_os n = true) by reflexivity.
  split; [exact H|].
  exact (proj2 (proj2 (blank_line_only_reprints_prompt sample_os 1 (String HT " ")
                         ("exit" ++ nl)
                         (machine_of_table [] (String HT " " ++ nl ++ "exit" ++ nl))
                         H eq_refl eq_refl eq_refl))).
Defined.

(** ** What each command can touch *)

Lemma add_alias_prompt (s : ShellState) (n o : string) :
  shellname (add_alias s n o) = shellname s
  /\ terminator (add_alias s n o) = terminator s.
Proof.
  unfold add_alias. destruct (alias_count s <? MAX_ALIASES)%nat; split; reflexivity.
Qed.

Lemma load_pairs_prompt (ps : list (string * string)) (s : ShellState) :
  shellname (load_pairs s ps) = shellname s
  /\ terminator (load_pairs s ps) = terminator s.
Proof.
  revert s. induction ps as [|p ps IH]; intros s; simpl; [split; reflexivity|].
  destruct (IH (add_alias s (cstr (fst p)) (cstr (snd p)))) as [H1 H2].
  destruct (add_alias_prompt s (cstr (fst p)) (cstr (snd p))) as [H3 H4].
  split; congruence.
Qed.

(** The outcome of [readnewnames] in every case. *)
Lemma readnewnames_cases (os : OS) (args : list string) (m : Machine) :
  (exists text, readnewnames os args m = Ret 1%Z (eprint text m))
  \/ (exists path extra cmd content,
        args = cmd :: path :: extra
        /\ files m !! os_resolve os (cwd m) path = Some content
        /\ ((forallb fits (words isspace content) = true
             /\ readnewnames os args m
                = Ret 1%Z (set_sh (load_pairs (sh m) (pairs (words isspace content))) m))
            \/ (forallb fits (words isspace content) = false
                /\ readnewnames os args m = Undefined))).
Proof.
  destruct args as [|cmd [|path extra]]; [left; eexists; reflexivity .. |].
  destruct (files m !! os_resolve os (cwd m) path) as [content|] eqn:Hfile.
  - right. exists path, extra, cmd, content. split; [reflexivity|]. split; [exact Hfile|].
    apply readnewnames_spec, Hfile.
  - left. unfold readnewnames.
    change ((cmd :: path :: extra) !! 1%nat) with (Some path). cbv beta iota.
    rewrite Hfile. eexists. reflexivity.
Qed.

(** The registry by cases: the handler that runs for each name. *)
Lemma run_resolved_cases (os : OS) (name : string) (rest : list string) (m : Machine) :
  (name = "cd" /\ run_resolved os name rest m = lsh_cd os (name :: rest) m)
  \/ (name = "help" /\ run_resolved os name rest m = lsh_help os (name :: rest) m)
  \/ (name = "exit" /\ run_resolved os name rest m = lsh_exit os (name :: rest) m)
  \/ (name = "setshellname"
      /\ run_resolved os name rest m = setshellname os (name :: rest) m)
  \/ (name = "setterminator"
      /\ run_resolved os name rest m = setterminator os (name :: rest) m)
  \/ (name = "newname" /\ run_resolved os name rest m = newname os (name :: rest) m)
  \/ (name = "listnewnames"
      /\ run_resolved os name rest m = listnewnames os (name :: rest) m)
  \/ (name = "savenewnames"
      /\ run_resolved os name rest m = savenewnames os (name :: rest) m)
  \/ (name = "readnewnames"
      /\ run_resolved os name rest m = readnewnames os (name :: rest) m)
  \/ (name = "STOP" /\ run_resolved os name rest m = lsh_stop os (name :: rest) m)
  \/ (~ In name builtin_str
      /\ run_resolved os name rest m = lsh_launch os (name :: rest) m).
Proof.
  unfold run_resolved, builtin_registry, builtin_str. cbn [registry_lookup].
  repeat match goal with
         | |- context [String.eqb name ?s] =>
             destruct (String.eqb_spec name s) as [->|?];
             [repeat (first [left; split; reflexivity | right])|]
         end.
  do 10 right. split; [|reflexivity]. simpl. intuition congruence.
Qed.

Lemma lsh_launch_cases (os : OS) (args : list string) (m : Machine) :
  (os_fork os m args = 0%Z
   /\ (lsh_launch os args m = Exec args m
       \/ lsh_launch os args m = Exit EXIT_FAILURE (child_exit os m)))
  \/ (os_fork os m args <> 0%Z
      /\ exists m',
           (lsh_launch os args m = Ret 1%Z m' \/ lsh_launch os args m = Blocked m')
           /\ sh m' = sh m /\ cwd m' = cwd m).
Proof.
  destruct (Z.eq_dec (os_fork os m args) 0%Z) as [E|Hne].
  - left. split; [exact E|]. unfold lsh_launch. rewrite E. simpl.
    destruct (os_execvp os m args); auto.
  - right. split; [exact Hne | apply lsh_launch_parent, Hne].
Qed.

Lemma lsh_execute_resolved_name (os : OS) (name : string) (rest : list string)
    (m : Machine) :
  wf_shell (sh m) ->
  lsh_execute os (name :: rest) m = run_resolved os (resolved_name m name) rest m.
Proof. intros Hwf. apply lsh_execute_run_resolved, Hwf. Qed.

(** X6.  [lsh_execute] returns 0 only for [exit] and [STOP] (the name
    taken after alias substitution), and then the machine is untouched;
    every other command that returns, builtin or external, returns 1.
    So only these two commands end the loop through its condition. *)
Theorem lsh_execute_returns_zero_only_for_exit_and_STOP
    (os : OS) (name : string) (rest : list string) (m m' : Machine) (v : Z) :
  wf_shell (sh m) ->
  lsh_execute os (name :: rest) m = Ret v m' ->
  (v = 0%Z /\ m' = m
   /\ (resolved_name m name = "exit" \/ resolved_name m name = "STOP"))
  \/ (v = 1%Z
      /\ resolved_name m name <> "exit" /\ resolved_name m name <> "STOP").
Proof.
  intros Hwf Hrun. rewrite (lsh_execute_resolved_name os name rest m Hwf) in Hrun.
  destruct (run_resolved_cases os (resolved_name m name) rest m)
    as [[Hn E]|[[Hn E]|[[Hn E]|[[Hn E]|[[Hn E]|[[Hn E]|[[Hn E]|[[Hn E]|[[Hn E]|[[Hn E]|[Hn E]]]]]]]]]]];
    rewrite E in Hrun; clear E.
  - right. rewrite Hn. unfold lsh_cd in Hrun.
    destruct (_ !! 1%nat) as [dir|]; [destruct (os_chdir os (cwd m) dir)|];
      inversion Hrun; subst; repeat split; discriminate.
  - right. rewrite Hn. inversion Hrun; subst. repeat split; discriminate.
  - left. rewrite Hn. inversion Hrun; subst. auto.
  - right. rewrite Hn. unfold setshellname in Hrun.
    destruct (_ !! 1%nat); inversion Hrun; subst; repeat split; discriminate.
  - right. rewrite Hn. unfold setterminator in Hrun.
    destruct (_ !! 1%nat); inversion Hrun; subst; repeat split; discriminate.
  - right. rewrite Hn.
    destruct (newname_outcome os (resolved_name m name :: rest) m Hwf) as (m1 & H1 & _).
    rewrite H1 in Hrun. inversion Hrun; subst. repeat split; discriminate.
  - right. rewrite Hn. inversion Hrun; subst. repeat split; discriminate.
  - right. rewrite Hn. unfold savenewnames in Hrun.
    destruct (_ !! 1%nat) as [path|]; [destruct (os_writable os _)|];
      inversion Hrun; subst; repeat split; discriminate.
  - right. rewrite Hn.
    destruct (readnewnames_cases os (resolved_name m name :: rest) m)
      as [[text H1]|(path & extra & cmd & content & _ & _ & [[_ H1]|[_ H1]])];
      rewrite H1 in Hrun; inversion Hrun; subst; repeat split; discriminate.
  - left. rewrite Hn. inversion Hrun; subst. auto.
  - right.
    destruct (lsh_launch_cases os (resolved_name m name :: rest) m)
      as [[_ [H1|H1]]|[_ (m1 & [H1|H1] & _)]];
      rewrite H1 in Hrun; inversion Hrun; subst.
    repeat split; intros Heq; apply Hn; rewrite Heq; simpl; tauto.
Qed.

Lemma lsh_execute_returns_zero_only_for_exit_and_STOP_witness :
  wf_shell (sh quit_machine)
  /\ lsh_execute sample_os ["q"; "now"] quit_machine = Ret 0%Z quit_machine
  /\ resolved_name quit_machine "q" = "exit".
Proof.
  assert (Hwf : wf_shell (sh quit_machine)).
  { split; simpl; unfold MAX_ALIASES; lia. }
  assert (Hrun : lsh_execute sample_os ["q"; "now"] quit_machine = Ret 0%Z quit_machine)
    by reflexivity.
  split; [exact Hwf|]. split; [exact Hrun|].
  destruct (lsh_execute_returns_zero_only_for_exit_and_STOP sample_os "q" ["now"]
              quit_machine quit_machine 0%Z Hwf Hrun)
    as [(_ & _ & [H|H])|(H & _)]; [exact H | discriminate H | discriminate H].
Defined.

(** X7.  What a command that returns has left alone, by the name taken
    after alias substitution: only [setshellname] changes the prompt
    name and only [setterminator] the terminator; only [newname] and
    [readnewnames] change the alias array or its count; only [cd]
    changes the working directory; no builtin but [savenewnames]
    changes a file; and no builtin takes anything from the input. *)
Theorem lsh_execute_footprint
    (os : OS) (name : string) (rest : list string) (m m' : Machine) (v : Z) :
  wf_shell (sh m) ->
  lsh_execute os (name :: rest) m = Ret v m' ->
  (resolved_name m name <> "setshellname" -> shellname (sh m') = shellname (sh m))
  /\ (resolved_name m name <> "setterminator" -> terminator (sh m') = terminator (sh m))
  /\ (resolved_name m name <> "newname" -> resolved_name m name <> "readnewnames" ->
      aliases (sh m') = aliases (sh m) /\ alias_count (sh m') = alias_count (sh m))
  /\ (resolved_name m name <> "cd" -> cwd m' = cwd m)
  /\ (In (resolved_name m name) builtin_str ->
      resolved_name m name <> "savenewnames" -> files m' = files m)
  /\ (In (resolved_name m name) builtin_str -> stdin m' = stdin m).
Proof.
  intros Hwf Hrun. rewrite (lsh_execute_resolved_name os name rest m Hwf) in Hrun.
  destruct (run_resolved_cases os (resolved_name m name) rest m)
    as [[Hn E]|[[Hn E]|[[Hn E]|[[Hn E]|[[Hn E]|[[Hn E]|[[Hn E]|[[Hn E]|[[Hn E]|[[Hn E]|[Hn E]]]]]]]]]]];
    rewrite E in Hrun; clear E; try rewrite Hn.
  - unfold lsh_cd in Hrun.
    destruct (_ !! 1%nat) as [dir|]; [destruct (os_chdir os (cwd m) dir)|];
      inversion Hrun; subst; simpl_machine; repeat split; intros; congruence.
  - inversion Hrun; subst. repeat split.
  - inversion Hrun; subst. repeat split.
  - unfold setshellname in Hrun.
    destruct (_ !! 1%nat); inversion Hrun; subst; simpl_machine;
      repeat split; intros; congruence.
  - unfold setterminator in Hrun.
    destruct (_ !! 1%nat); inversion Hrun; subst; simpl_machine;
      repeat split; intros; congruence.
  - unfold newname in Hrun.
    destruct (_ !! 1%nat) as [a1|];
      [destruct (_ !! 2%nat) as [a2|];
       [destruct (alias_count (sh m) <? MAX_ALIASES)%nat
       |destruct (find_alias (alias_count (sh m)) 0 a1 (aliases (sh m)))]|];
      inversion Hrun; subst; simpl_machine; repeat split; intros; congruence.
  - inversion Hrun; subst.
    destruct (list_loop_frame (alias_count (sh m)) 0 (aliases (sh m)) m)
      as (H1 & H2 & H3 & H4 & _).
    rewrite H1, H2, H3, H4. repeat split.
  - unfold savenewnames in Hrun.
    destruct (_ !! 1%nat) as [path|]; [destruct (os_writable os _)|];
      inversion Hrun; subst; simpl_machine; repeat split; intros; congruence.
  - destruct (readnewnames_cases os (resolved_name m name :: rest) m)
      as [[text H1]|(path & extra & cmd & content & _ & _ & [[_ H1]|[_ H1]])];
      rewrite H1 in Hrun; inversion Hrun; subst; simpl_machine.
    + repeat split; intros; congruence.
    + destruct (load_pairs_prompt (pairs (words isspace content)) (sh m)) as [Hs Ht].
      rewrite Hs, Ht. repeat split; intros; congruence.
  - inversion Hrun; subst. repeat split.
  - destruct (lsh_launch_cases os (resolved_name m name :: rest) m)
      as [[_ [H1|H1]]|[_ (m1 & [H1|H1] & Hsh & Hcwd)]];
      rewrite H1 in Hrun; inversion Hrun; subst.
    rewrite Hsh, Hcwd. repeat split; intros; contradiction.
Qed.

Lemma lsh_execute_footprint_witness :
  wf_shell (sh duplicate_machine)
  /\ lsh_execute sample_os ["h"; "me"] duplicate_machine
     = Ret 1%Z (fold_left (fun m' line => print line m') help_text duplicate_machine)
  /\ resolved_name duplicate_machine "h" = "help"
  /\ cwd (fold_left (fun m' line => print line m') help_text duplicate_machine)
     = cwd duplicate_machine
  /\ files (fold_left (fun m' line => print line m') help_text duplicate_machine)
     = files duplicate_machine
  /\ stdin (fold_left (fun m' line => print line m') help_text duplicate_machine)
     = stdin duplicate_machine.
Proof.
  assert (Hwf : wf_shell (sh duplicate_machine)).
  { split; simpl; unfold MAX_ALIASES; lia. }
  assert (Hrun : lsh_execute sample_os ["h"; "me"] duplicate_machine
                 = Ret 1%Z (fold_left (fun m' line => print line m') help_text
                              duplicate_machine)) by reflexivity.
  destruct (lsh_execute_footprint sample_os "h" ["me"] duplicate_machine _ 1%Z Hwf Hrun)
    as (_ & _ & _ & Hcwd & Hfiles & Hstdin).
  split; [exact Hwf|]. split; [exact Hrun|]. split; [reflexivity|].
  split; [apply Hcwd; discriminate|].
  split; [apply Hfiles; [simpl; tauto | discriminate]|].
  apply Hstdin. simpl. tauto.
Defined.

Lemma forallb_fits_false (ws : list string) :
  forallb fits ws = false ->
  Exists (fun w => (NAME_BUFSIZE <= String.length w)%nat) ws.
Proof.
  induction ws as [|w ws IH]; simpl; [discriminate|].
  destruct (fits w) eqn:Hw; simpl.
  - intros H. right. exact (IH H).
  - intros _. left. unfold fits in Hw. apply Nat.ltb_ge in Hw. exact Hw.
Qed.

Lemma forallb_fits_true (ws : list string) :
  forallb fits ws = true ->
  Forall (fun w => (String.length w < NAME_BUFSIZE)%nat) ws.
Proof.
  induction ws as [|w ws IH]; simpl; [constructor|].
  intros H. apply andb_true_iff in H as [Hw H].
  constructor; [apply Nat.ltb_lt, Hw | exact (IH H)].
Qed.


(** ** The forked child *)

(** X9.  In the process where [fork] has just returned 0, the launch of
    a program never returns to the loop: the image is replaced, or
    [execvp] has failed and the child writes the reason to the error
    stream and ends with [EXIT_FAILURE], its shell state as it was.  So
    a pass of the loop on a line that names an external program is the
    last thing the child does as a shell: it runs no other command and
    reads no other line, whatever follows in the input. *)
Theorem forked_child_never_returns_to_loop
    (os : OS) (fuel : nat) (line rest name : string) (args : list string) (m : Machine) :
  (forall n, heap_grants os n = true) ->
  wf_shell (sh m) ->
  stdin m = (line ++ String LF rest)%string ->
  no_newline line = true ->
  words is_tok_delim (cstr line) = name :: args ->
  ~ In (resolved_name m name) builtin_str ->
  os_fork os (set_stdin rest (print (prompt (sh m)) m)) (resolved_name m name :: args)
  = 0%Z ->
  (exists m', lsh_loop os (S fuel) m = Exec (resolved_name m name :: args) m')
  \/ (exists m',
        lsh_loop os (S fuel) m = Exit EXIT_FAILURE m'
        /\ stderr m'
           = stderr m
             ++ [("lsh: " ++ os_strerror os (set_stdin rest (print (prompt (sh m)) m))
                  ++ nl)%string]
        /\ sh m' = sh m).
Proof.
  intros Hheap Hwf Hin Hline Hwords Hext Hfork.
  rewrite (lsh_loop_line os Hheap fuel line rest m Hin Hline), Hwords.
  unfold bind.
  rewrite (lsh_execute_resolved_name os name args
             (set_stdin rest (print (prompt (sh m)) m)) Hwf).
  change (resolved_name (set_stdin rest (print (prompt (sh m)) m)) name)
    with (resolved_name m name).
  destruct (run_resolved_cases os (resolved_name m name) args
              (set_stdin rest (print (prompt (sh m)) m)))
    as [[Hn _]|[[Hn _]|[[Hn _]|[[Hn _]|[[Hn _]|[[Hn _]|[[Hn _]|[[Hn _]|[[Hn _]|[[Hn _]|[_ E]]]]]]]]]]];
    try (exfalso; apply Hext; rewrite Hn; simpl; tauto).
  rewrite E. unfold lsh_launch. rewrite Hfork. simpl.
  destruct (os_execvp os _ _); [left | right]; eexists; [reflexivity|].
  split; [reflexivity|]. split; reflexivity.
Qed.

Lemma forked_child_never_returns_to_loop_witness :
  (forall n, heap_grants forked_child_os n = true)
  /\ wf_shell (sh (machine_of_table [] ("frobnicate -x" ++ nl ++ "pwd" ++ nl)))
  /\ exists m',
       lsh_loop forked_child_os 5
         (machine_of_table [] ("frobnicate -x" ++ nl ++ "pwd" ++ nl))
       = Exit EXIT_FAILURE m'
       /\ stderr m' = [("lsh: No such file or directory" ++ nl)%string].
Proof.
  assert (Hheap : forall n, heap_grants forked_child_os n = true) by reflexivity.
  assert (Hwf : wf_shell (sh (machine_of_table [] ("frobnicate -x" ++ nl ++ "pwd" ++ nl)))).
  { split; simpl; unfold MAX_ALIASES; lia. }
  split; [exact Hheap|]. split; [exact Hwf|].
  assert (Hext : ~ In (resolved_name
                         (machine_of_table [] ("frobnicate -x" ++ nl ++ "pwd" ++ nl))
                         "frobnicate") builtin_str).
  { simpl. intuition discriminate. }
  destruct (forked_child_never_returns_to_loop forked_child_os 4 "frobnicate -x"
              ("pwd" ++ nl) "frobnicate" ["-x"]
              (machine_of_table [] ("frobnicate -x" ++ nl ++ "pwd" ++ nl))
              Hheap Hwf eq_refl eq_refl eq_refl Hext eq_refl)
    as [[m' H]|(m' & H & Herr & _)].
  - vm_compute in H. discriminate H.
  - exists m'. split; [exact H | exact Herr].
Defined.

(** ** The alias file *)

(** X10.  For a table whose names are all non-empty, free of white
    space and shorter than 256 bytes, [savenewnames] on a path that can
    be written, followed by [readnewnames] on the same path in a shell
    whose table is empty, returns 1 and gives back the same entries in
    the same order. *)
Theorem alias_file_round_trip (os : OS) (path : string) (m : Machine) :
  wf_shell (sh m) ->
  os_writable os (os_resolve os (cwd m) path) = true ->
  Forall (fun a => name_ok (new_name a) = true /\ name_ok (old_name a) = true)
         (table (sh m)) ->
  exists m',
    save_then_load os path m = Ret 1%Z m'
    /\ table (sh m') = table (sh m).
Proof.
  intros Hwf Hw Hok.
  destruct (save_then_load_round_trip os path m Hwf Hw Hok) as (m' & Hrun & Htab & _).
  exists m'. split; assumption.
Qed.

Lemma alias_file_round_trip_witness :
  wf_shell (sh duplicate_machine)
  /\ os_writable sample_os (os_resolve sample_os (cwd duplicate_machine) "names") = true
  /\ Forall (fun a => name_ok (new_name a) = true /\ name_ok (old_name a) = true)
            (table (sh duplicate_machine))
  /\ exists m',
       save_then_load sample_os "names" duplicate_machine = Ret 1%Z m'
       /\ table (sh m') = duplicate_table.
Proof.
  assert (Hwf : wf_shell (sh duplicate_machine)).
  { split; simpl; unfold MAX_ALIASES; lia. }
  assert (Hw : os_writable sample_os
                 (os_resolve sample_os (cwd duplicate_machine) "names") = true)
    by reflexivity.
  assert (Hok : Forall (fun a => name_ok (new_name a) = true
                                 /\ name_ok (old_name a) = true)
                  (table (sh duplicate_machine))).
  { repeat constructor. }
  split; [exact Hwf|]. split; [exact Hw|]. split; [exact Hok|].
  exact (alias_file_round_trip sample_os "names" duplicate_machine Hwf Hw Hok).
Defined.

(** X11.  [savenewnames] on a path that can be written replaces the
    content of that file by one line "<new_name> <old_name>" per entry
    of the table, in table order (an empty file for an empty table);
    every other file, the shell state and both output streams are as
    before.  On a path that cannot be written it only reports the
    reason on the error stream. *)
Theorem savenewnames_replaces_one_file
    (os : OS) (cmd path : string) (extra : list string) (m : Machine) :
  wf_shell (sh m) ->
  (os_writable os (os_resolve os (cwd m) path) = true ->
   exists m',
     savenewnames os (cmd :: path :: extra) m = Ret 1%Z m'
     /\ files m' !! os_resolve os (cwd m) path = Some (save_text (table (sh m)))
     /\ (forall other, other <> os_resolve os (cwd m) path ->
           files m' !! other = files m !! other)
     /\ sh m' = sh m /\ stdout m' = stdout m /\ stderr m' = stderr m)
  /\ (os_writable os (os_resolve os (cwd m) path) = false ->
      savenewnames os (cmd :: path :: extra) m
      = Ret 1%Z (eprint ("Error opening file: " ++ os_strerror os m ++ nl)%string m)).
Proof.
  intros Hwf. split.
  - intros Hw. rewrite (savenewnames_writes_table os cmd path extra m Hwf Hw).
    eexists. split; [reflexivity|]. simpl_machine. split; [apply lookup_insert_eq|].
    split; [|repeat split].
    intros other Hne. apply lookup_insert_ne. congruence.
  - intros Hw. unfold savenewnames.
    change ((cmd :: path :: extra) !! 1%nat) with (Some path). cbv beta iota zeta.
    rewrite Hw. reflexivity.
Qed.

Lemma savenewnames_replaces_one_file_witness :
  wf_shell (sh (names_machine duplicate_table))
  /\ exists m',
       savenewnames sample_os ["savenewnames"; "names"] (names_machine duplicate_table)
       = Ret 1%Z m'
       /\ files m' !! "/home/names"
          = Some ("g grep" ++ nl ++ "ll ls" ++ nl ++ "h help" ++ nl ++ "ll dir" ++ nl)%string.
Proof.
  assert (Hwf : wf_shell (sh (names_machine duplicate_table))).
  { split; simpl; unfold MAX_ALIASES; lia. }
  split; [exact Hwf|].
  destruct (proj1 (savenewnames_replaces_one_file sample_os "savenewnames" "names" []
                     (names_machine duplicate_table) Hwf) eq_refl)
    as (m' & Hrun & Hfile & _).
  exists m'. split; [exact Hrun | exact Hfile].
Defined.


(** X12.  [readnewnames] on an existing file whose tokens are all
    shorter than 256 bytes returns 1; the white-space-delimited tokens
    are taken two by two, in order, and appended to the table while it
    has room; the pairs beyond capacity and a last token without a
    partner are dropped.  The table entries that were there stay first
    and unchanged, and nothing but the alias array and its count
    changes. *)
Theorem readnewnames_appends_while_room
    (os : OS) (cmd path : string) (extra : list string) (m : Machine) (content : string) :
  wf_shell (sh m) ->
  files m !! os_resolve os (cwd m) path = Some content ->
  Forall (fun w => (String.length w < NAME_BUFSIZE)%nat) (words isspace content) ->
  exists s',
    readnewnames os (cmd :: path :: extra) m = Ret 1%Z (set_sh s' m)
    /\ table s'
       = table (sh m)
         ++ take (MAX_ALIASES - alias_count (sh m))
              (map alias_of_pair (pairs (words isspace content)))
    /\ shellname s' = shellname (sh m)
    /\ terminator s' = terminator (sh m).
Proof.
  intros Hwf Hfile Hfit.
  destruct (readnewnames_spec os cmd path extra m content Hfile)
    as [[_ Hrun]|[Hbad _]].
  - eexists. split; [exact Hrun|]. split; [apply load_pairs_take, Hwf|].
    apply load_pairs_prompt.
  - exfalso. apply forallb_fits_false in Hbad.
    apply Exists_exists in Hbad as (w & Hin & Hlong).
    rewrite Forall_forall in Hfit. specialize (Hfit w Hin). lia.
Qed.

Lemma readnewnames_appends_while_room_witness :
  wf_shell (sh (names_machine [mkAlias "ll" "dir"]))
  /\ exists s',
       readnewnames sample_os ["readnewnames"; "names"; "ignored"]
         (names_machine [mkAlias "ll" "dir"])
       = Ret 1%Z (set_sh s' (names_machine [mkAlias "ll" "dir"]))
       /\ table s'
          = [ mkAlias "ll" "dir"; mkAlias "ll" "ls"; mkAlias "g" "grep";
              mkAlias "h" "help" ].
Proof.
  assert (Hwf : wf_shell (sh (names_machine [mkAlias "ll" "dir"]))).
  { split; simpl; unfold MAX_ALIASES; lia. }
  split; [exact Hwf|].
  destruct (readnewnames_appends_while_room sample_os "readnewnames" "names" ["ignored"]
              (names_machine [mkAlias "ll" "dir"]) names_file Hwf eq_refl)
    as (s' & Hrun & Htab & _).
  - repeat constructor; vm_compute; lia.
  - exists s'. split; [exact Hrun | exact Htab].
Defined.

(** X13.  On an existing file, [readnewnames] writes past the end of
    one of its 256-byte arrays exactly when some white-space-delimited
    token of the file has 256 bytes or more, wherever the token stands:
    beyond the capacity of the table, or last and without partner. *)
Theorem readnewnames_overrun_iff_long_token
    (os : OS) (cmd path : string) (extra : list string) (m : Machine) (content : string) :
  files m !! os_resolve os (cwd m) path = Some content ->
  readnewnames os (cmd :: path :: extra) m = Undefined
  <-> Exists (fun w => (NAME_BUFSIZE <= String.length w)%nat) (words isspace content).
Proof.
  intros Hfile.
  destruct (readnewnames_spec os cmd path extra m content Hfile)
    as [[Hok Hrun]|[Hbad Hrun]]; rewrite Hrun.
  - split; [discriminate|]. intros Hex. exfalso.
    apply forallb_fits_true in Hok.
    apply Exists_exists in Hex as (w & Hin & Hlong).
    rewrite Forall_forall in Hok. specialize (Hok w Hin). lia.
  - split; [|reflexivity]. intros _. apply forallb_fits_false, Hbad.
Qed.

Lemma readnewnames_overrun_iff_long_token_witness :
  files long_file_machine !! os_resolve sample_os (cwd long_file_machine) "names"
  = Some (long_name ++ " ls" ++ nl)%string
  /\ Exists (fun w => (NAME_BUFSIZE <= String.length w)%nat)
            (words isspace (long_name ++ " ls" ++ nl)%string).
Proof.
  assert (Hfile : files long_file_machine
                    !! os_resolve sample_os (cwd long_file_machine) "names"
                  = Some (long_name ++ " ls" ++ nl)%string) by reflexivity.
  split; [exact Hfile|].
  apply (proj1 (readnewnames_overrun_iff_long_token sample_os "readnewnames" "names" []
                  long_file_machine _ Hfile)).
  vm_compute. reflexivity.
Defined.

(** ** Listing, defining and removing *)

Lemma list_loop_stdout (n i : nat) (arr : list Alias) (m : Machine) :
  (i + n <= length arr)%nat ->
  stdout (list_loop n i arr m) = stdout m ++ map alias_line (take n (drop i arr)).
Proof.
  revert i m. induction n as [|n IH]; intros i m Hi.
  - simpl. rewrite app_nil_r. reflexivity.
  - rewrite take_drop_cons by lia. cbn [list_loop map].
    rewrite IH by lia. simpl_machine. rewrite <- app_assoc. reflexivity.
Qed.

(** X14.  [listnewnames] writes one line "<new_name> -> <old_name>" per
    entry of the table, in table order and after what was already
    written (nothing for an empty table); it writes nothing to the
    error stream and ignores its arguments. *)
Theorem listnewnames_prints_table_in_order
    (os : OS) (args : list string) (m : Machine) :
  wf_shell (sh m) ->
  exists m',
    listnewnames os args m = Ret 1%Z m'
    /\ stdout m' = stdout m ++ map alias_line (table (sh m))
    /\ stderr m' = stderr m.
Proof.
  intros Hwf. apply wf_count_le_length in Hwf.
  unfold listnewnames. eexists. split; [reflexivity|]. split.
  - rewrite list_loop_stdout by (simpl; lia). rewrite drop_0. reflexivity.
  - apply list_loop_frame.
Qed.

Lemma listnewnames_prints_table_in_order_witness :
  wf_shell (sh duplicate_machine)
  /\ exists m',
       listnewnames sample_os ["listnewnames"; "x"] duplicate_machine = Ret 1%Z m'
       /\ stdout m'
          = [ ("g -> grep" ++ nl)%string; ("ll -> ls" ++ nl)%string;
              ("h -> help" ++ nl)%string; ("ll -> dir" ++ nl)%string ].
Proof.
  assert (Hwf : wf_shell (sh duplicate_machine)).
  { split; simpl; unfold MAX_ALIASES; lia. }
  split; [exact Hwf|].
  destruct (listnewnames_prints_table_in_order sample_os ["listnewnames"; "x"]
              duplicate_machine Hwf) as (m' & Hrun & Hout & _).
  exists m'. split; [exact Hrun | exact Hout].
Defined.

(** X15.  Defining a name that no entry has, in a table with room, and
    then removing that name gives back the table as it was, with the
    same count, and writes no diagnostic. *)
Theorem define_then_undefine_restores_table
    (os : OS) (cmd1 cmd2 n o : string) (m : Machine) :
  wf_shell (sh m) ->
  (alias_count (sh m) < MAX_ALIASES)%nat ->
  Forall (fun a => new_name a <> n) (table (sh m)) ->
  exists m1 m2,
    newname os [cmd1; n; o] m = Ret 1%Z m1
    /\ newname os [cmd2; n] m1 = Ret 1%Z m2
    /\ table (sh m2) = table (sh m)
    /\ alias_count (sh m2) = alias_count (sh m)
    /\ stderr m2 = stderr m.
Proof.
  intros Hwf Hroom Hfresh.
  destruct (newname_define os cmd1 n o [] m Hwf Hroom)
    as (m1 & Hrun1 & Htab1 & Hwf1 & _ & _ & Herr1).
  destruct (newname_undefine os cmd2 n m1 (table (sh m)) [] (mkAlias n o)
              Hwf1 Htab1 Hfresh eq_refl)
    as (m2 & Hrun2 & Htab2 & Hcnt2 & _ & _ & _ & Herr2).
  exists m1, m2. split; [exact Hrun1|]. split; [exact Hrun2|].
  split; [rewrite Htab2, app_nil_r; reflexivity|].
  split; [|congruence].
  rewrite Hcnt2. unfold newname in Hrun1. simpl in Hrun1.
  apply Nat.ltb_lt in Hroom. rewrite Hroom in Hrun1.
  inversion Hrun1; subst. simpl_machine. lia.
Qed.

Lemma define_then_undefine_restores_table_witness :
  wf_shell (sh duplicate_machine)
  /\ (alias_count (sh duplicate_machine) < MAX_ALIASES)%nat
  /\ Forall (fun a => new_name a <> "la") (table (sh duplicate_machine))
  /\ exists m1 m2,
       newname sample_os ["newname"; "la"; "ls"] duplicate_machine = Ret 1%Z m1
       /\ newname sample_os ["newname"; "la"] m1 = Ret 1%Z m2
       /\ table (sh m2) = duplicate_table.
Proof.
  assert (Hwf : wf_shell (sh duplicate_machine)).
  { split; simpl; unfold MAX_ALIASES; lia. }
  assert (Hroom : (alias_count (sh duplicate_machine) < MAX_ALIASES)%nat).
  { simpl. unfold MAX_ALIASES. lia. }
  assert (Hfresh : Forall (fun a => new_name a <> "la") (table (sh duplicate_machine))).
  { repeat constructor; discriminate. }
  split; [exact Hwf|]. split; [exact Hroom|]. split; [exact Hfresh|].
  destruct (define_then_undefine_restores_table sample_os "newname" "newname" "la" "ls"
              duplicate_machine Hwf Hroom Hfresh)
    as (m1 & m2 & H1 & H2 & Htab & _).
  exists m1, m2. split; [exact H1|]. split; [exact H2 | exact Htab].
Defined.

Lemma resolve_app (name : string) (tbl : list Alias) (a : Alias) :
  resolve name (tbl ++ [a])
  = match resolve name tbl with
    | Some target => Some target
    | None => if String.eqb name (new_name a) then Some (old_name a) else None
    end.
Proof.
  induction tbl as [|b tbl IH]; simpl; [reflexivity|].
  destruct (String.eqb name (new_name b)); [reflexivity | exact IH].
Qed.

(** X16.  After the two-argument [newname] in a table with room, the
    name dispatches to its new target if no entry had that name, and
    still to the target of the earlier entry otherwise (the new entry
    is shadowed); every other name resolves as before. *)
Theorem newly_defined_alias_dispatches
    (os : OS) (cmd n o : string) (m : Machine) :
  wf_shell (sh m) ->
  (alias_count (sh m) < MAX_ALIASES)%nat ->
  exists m1,
    newname os [cmd; n; o] m = Ret 1%Z m1
    /\ (forall rest,
          lsh_execute os (n :: rest) m1
          = run_resolved os
              (match resolve n (table (sh m)) with
               | Some earlier => earlier
               | None => o
               end) rest m1)
    /\ (forall other, other <> n ->
          resolve other (table (sh m1)) = resolve other (table (sh m))).
Proof.
  intros Hwf Hroom.
  destruct (newname_define os cmd n o [] m Hwf Hroom) as (m1 & Hrun & Htab & Hwf1 & _).
  exists m1. split; [exact Hrun|]. split.
  - intros rest. rewrite (lsh_execute_run_resolved os n rest m1 Hwf1).
    rewrite Htab, resolve_app. simpl. rewrite String.eqb_refl.
    destruct (resolve n (table (sh m))); reflexivity.
  - intros other Hne. rewrite Htab, resolve_app. simpl.
    destruct (String.eqb_spec other n) as [E|_]; [contradiction|].
    destruct (resolve other (table (sh m))); reflexivity.
Qed.

Lemma newly_defined_alias_dispatches_witness :
  wf_shell (sh duplicate_machine)
  /\ (alias_count (sh duplicate_machine) < MAX_ALIASES)%nat
  /\ exists m1,
       newname sample_os ["newname"; "ll"; "vdir"] duplicate_machine = Ret 1%Z m1
       /\ lsh_execute sample_os ["ll"; "-a"] m1 = run_resolved sample_os "ls" ["-a"] m1.
Proof.
  assert (Hwf : wf_shell (sh duplicate_machine)).
  { split; simpl; unfold MAX_ALIASES; lia. }
  assert (Hroom : (alias_count (sh duplicate_machine) < MAX_ALIASES)%nat).
  { simpl. unfold MAX_ALIASES. lia. }
  split; [exact Hwf|]. split; [exact Hroom|].
  destruct (newly_defined_alias_dispatches sample_os "newname" "ll" "vdir"
              duplicate_machine Hwf Hroom) as (m1 & Hrun & Hexec & _).
  exists m1. split; [exact Hrun | exact (Hexec ["-a"])].
Defined.

(** ** The array invariant over a whole session *)








(** ** Waiting for the child *)

Lemma wait_loop_only_stops (status : wstatus) (sigs : list Z) :
  wait_loop status (map (fun g => Reported (WStopped g)) sigs) = false.
Proof.
  revert status. induction sigs as [|g sigs IH]; intros status; [reflexivity|].
  simpl. apply IH.
Qed.

(** X18.  In the parent of a child whose program runs ([fork] returned
    a positive number, [execvp] succeeded): reports that the child was
    stopped are passed over, and the launcher returns 1 at the first
    report that the child exited or was killed; if [waitpid] only ever
    reports stops, the launcher does not return; and if the first
    [waitpid] fails, nothing has been stored in [status] and the test
    is made on what the variable happened to hold: when that reads as
    exited or killed, the launcher returns 1 at once, though no end of
    the child was reported. *)
Theorem lsh_launch_waits_through_stops (os : OS) (args : list string) (m : Machine) :
  (0 < os_fork os m args)%Z ->
  os_execvp os m args = true ->
  (forall sigs s more,
     child_history (os_child os m args)
     = map (fun g => Reported (WStopped g)) sigs ++ Reported s :: more ->
     WIFEXITED s = true \/ WIFSIGNALED s = true ->
     lsh_launch os args m = Ret 1%Z (after_child (os_child os m args) m))
  /\ (forall sigs,
        child_history (os_child os m args)
        = map (fun g => Reported (WStopped g)) sigs ->
        exists m', lsh_launch os args m = Blocked m')
  /\ (forall more,
        child_history (os_child os m args) = Failed :: more ->
        WIFEXITED (os_indeterminate os m args) = true
        \/ WIFSIGNALED (os_indeterminate os m args) = true ->
        exists m', lsh_launch os args m = Ret 1%Z m' /\ sh m' = sh m).
Proof.
  intros Hpid Hexec.
  assert (Hrun : lsh_launch os args m
                 = if wait_loop (os_indeterminate os m args)
                        (child_history (os_child os m args))
                   then Ret 1%Z (after_child (os_child os m args) m)
                   else Blocked (after_child (os_child os m args) m)).
  { unfold lsh_launch.
    destruct (Z.eqb_spec (os_fork os m args) 0) as [E|_]; [lia|].
    destruct (Z.ltb_spec (os_fork os m args) 0) as [Hneg|_]; [lia|].
    rewrite Hexec. reflexivity. }
  rewrite Hrun. split; [|split].
  - intros sigs s more Hhist Hs.
    rewrite Hhist, (wait_loop_through_stops _ s sigs more Hs). reflexivity.
  - intros sigs Hhist. rewrite Hhist, wait_loop_only_stops. eexists. reflexivity.
  - intros more Hhist Hs. rewrite Hhist. simpl.
    destruct Hs as [-> | ->]; [eexists; split; reflexivity|].
    destruct (WIFEXITED (os_indeterminate os m args)); eexists; split; reflexivity.
Qed.

Lemma lsh_launch_waits_through_stops_witness :
  (0 < os_fork sample_os duplicate_machine ["ls"])%Z
  /\ os_execvp sample_os duplicate_machine ["ls"] = true
  /\ lsh_launch sample_os ["ls"] duplicate_machine
     = Ret 1%Z (after_child (os_child sample_os duplicate_machine ["ls"]) duplicate_machine).
Proof.
  assert (Hpid : (0 < os_fork sample_os duplicate_machine ["ls"])%Z) by reflexivity.
  assert (Hexec : os_execvp sample_os duplicate_machine ["ls"] = true) by reflexivity.
  split; [exact Hpid|]. split; [exact Hexec|].
  apply (proj1 (lsh_launch_waits_through_stops sample_os ["ls"] duplicate_machine
                  Hpid Hexec) [19%Z] (WExited 0) []).
  - reflexivity.
  - left. reflexivity.
Defined.

(** ** Arguments that are missing, or too many *)

(** X19.  A builtin that needs an argument and gets none ([cd],
    [newname], [savenewnames], [readnewnames], the name taken after
    alias substitution), a [cd] whose [chdir] fails, and a
    [readnewnames] whose file cannot be opened, all return 1 and
    change nothing in the machine but the error stream, to which they
    add one line. *)
Theorem failed_builtin_only_reports (os : OS) (name : string) (m : Machine) :
  wf_shell (sh m) ->
  (In (resolved_name m name) ["cd"; "newname"; "savenewnames"; "readnewnames"] ->
   exists text, lsh_execute os [name] m = Ret 1%Z (eprint text m))
  /\ (forall dir extra,
        resolved_name m name = "cd" ->
        os_chdir os (cwd m) dir = None ->
        lsh_execute os (name :: dir :: extra) m
        = Ret 1%Z (eprint ("lsh: " ++ os_strerror os m ++ nl)%string m))
  /\ (forall path extra,
        resolved_name m name = "readnewnames" ->
        files m !! os_resolve os (cwd m) path = None ->
        lsh_execute os (name :: path :: extra) m
        = Ret 1%Z (eprint ("Error opening file: " ++ os_strerror os m ++ nl)%string m)).
Proof.
  intros Hwf. split; [|split].
  - intros Hin. rewrite (lsh_execute_resolved_name os name [] m Hwf).
    simpl in Hin. destruct Hin as [E|[E|[E|[E|[]]]]]; rewrite <- E;
      eexists; reflexivity.
  - intros dir extra Hn Hfail.
    rewrite (lsh_execute_resolved_name os name (dir :: extra) m Hwf), Hn.
    unfold run_resolved. simpl. unfold lsh_cd. simpl. rewrite Hfail. reflexivity.
  - intros path extra Hn Hfile.
    rewrite (lsh_execute_resolved_name os name (path :: extra) m Hwf), Hn.
    unfold run_resolved. cbn [registry_lookup builtin_registry String.eqb Ascii.eqb Bool.eqb].
    unfold readnewnames.
    change (("readnewnames" :: path :: extra) !! 1%nat) with (Some path).
    cbv beta iota. rewrite Hfile. reflexivity.
Qed.

Lemma failed_builtin_only_reports_witness :
  wf_shell (sh duplicate_machine)
  /\ lsh_execute sample_os ["readnewnames"; "nothing"] duplicate_machine
     = Ret 1%Z (eprint ("Error opening file: No such file or directory" ++ nl)%string
                  duplicate_machine).
Proof.
  assert (Hwf : wf_shell (sh duplicate_machine)).
  { split; simpl; unfold MAX_ALIASES; lia. }
  split; [exact Hwf|].
  exact (proj2 (proj2 (failed_builtin_only_reports sample_os "readnewnames"
                         duplicate_machine Hwf))
           "nothing" [] eq_refl eq_refl).
Defined.

(** X20.  No builtin looks further than its second argument: for every
    handler of the registry, the arguments after the second change
    nothing, and for every handler but [newname] neither does the
    second. *)
Theorem builtins_ignore_trailing_arguments
    (os : OS) (name : string) (handler : OS -> list string -> M Z)
    (cmd a b : string) (extra : list string) (m : Machine) :
  registry_lookup name builtin_registry = Some handler ->
  handler os (cmd :: a :: b :: extra) m = handler os [cmd; a; b] m
  /\ (name <> "newname" -> handler os (cmd :: a :: b :: extra) m = handler os [cmd; a] m).
Proof.
  unfold builtin_registry. cbn [registry_lookup].
  repeat match goal with
         | |- context [String.eqb name ?s] =>
             destruct (String.eqb_spec name s) as [->|?];
             [intros H; injection H as <-; split; [reflexivity|];
              intros Hne; first [reflexivity | contradiction]|]
         end.
  discriminate.
Qed.

Lemma builtins_ignore_trailing_arguments_witness :
  registry_lookup "setshellname" builtin_registry = Some setshellname
  /\ setshellname sample_os ["setshellname"; "bob"; "the"; "builder"] duplicate_machine
     = setshellname sample_os ["setshellname"; "bob"] duplicate_machine.
Proof.
  assert (H : registry_lookup "setshellname" builtin_registry = Some setshellname)
    by reflexivity.
  split; [exact H|].
  apply (proj2 (builtins_ignore_trailing_arguments sample_os "setshellname" setshellname
                  "setshellname" "bob" "the" ["builder"] duplicate_machine H)).
  discriminate.
Defined.
